(** * Watson-Glaser WhatsApp bot: the conversation state machine

    A shallow embedding of [src/index.js]: the in-memory session store
    ([memGet] / [memSet]), the question selector ([pickNextQuestion]) and the
    webhook handler with its three consecutive blocks (start test, record
    answer, ask next question / scoring).

    Conventions of the embedding:
    - JavaScript strings are [string]s; numbers that the handler only counts
      with or compares are [Z];
    - [null] / [undefined] are [None];
    - the object [bySection = {}] is a [gmap string Stats.t], the
      [Set] of asked ids a [gset string];
    - what the handler does to the outside world (messages sent, session
      persisted, attempts logged) is collected, in program order, in a trace
      of [Effect]s. *)

From Stdlib Require Import ZArith QArith Qround Ascii String List Lia.
From Stdlib Require Import Decimal DecimalString DecimalNat.
From stdpp Require Import gmap strings list fin_maps.

Local Open Scope string_scope.
Local Open Scope nat_scope.
Local Open Scope list_scope.

(* ===================================================================== *)
(** ** Text helpers: the start pattern and [parseInt]                     *)
(* ===================================================================== *)

Module Text.

  (** Case folding of a non-unicode [/i] pattern: a character is compared
      through its upper-case form; only the ASCII letters have one that
      matters here. *)
Definition canonicalize (c : ascii) : ascii :=
    let n := nat_of_ascii c in
    if (97 <=? n)%nat && (n <=? 122)%nat then ascii_of_nat (n - 32) else c.

Definition ci_char (a b : ascii) : bool :=
    Ascii.eqb (canonicalize a) (canonicalize b).

  (** [ci_prefix pat s]: the literal [pat] matches at the beginning of [s]. *)
Fixpoint ci_prefix (pat s : string) : bool :=
    match pat, s with
    | EmptyString, _ => true
    | String _ _, EmptyString => false
    | String p pat', String c s' => ci_char p c && ci_prefix pat' s'
    end.

  (** [ci_whole pat s]: the literal [pat] matches [s] from beginning to end. *)
Fixpoint ci_whole (pat s : string) : bool :=
    match pat, s with
    | EmptyString, EmptyString => true
    | String p pat', String c s' => ci_char p c && ci_whole pat' s'
    | _, _ => false
    end.

  (** [ci_suffix pat s]: at some index of [s], [pat] matches up to the end of
      the input (the search a regular expression [pat$] performs). *)
Fixpoint ci_suffix (pat s : string) : bool :=
    ci_whole pat s ||
    match s with
    | EmptyString => false
    | String _ s' => ci_suffix pat s'
    end.

  (** [/^start|test$/i.test(body)]: the alternation binds weaker than the
      anchors, so the pattern reads (^start)|(test$). *)
Definition start_pattern (body : string) : bool :=
    ci_prefix "start" body || ci_suffix "test" body.

  (** White space skipped by [parseInt] (the ASCII part of it). *)
Definition is_space (c : ascii) : bool :=
    let n := nat_of_ascii c in
    ((9 <=? n)%nat && (n <=? 13)%nat) || (n =? 32)%nat.

Fixpoint skip_space (s : string) : string :=
    match s with
    | String c s' => if is_space c then skip_space s' else s
    | EmptyString => s
    end.

Definition digit_of (c : ascii) : option Z :=
    let n := nat_of_ascii c in
    if (48 <=? n)%nat && (n <=? 57)%nat then Some (Z.of_nat (n - 48)) else None.

  (** Longest prefix of decimal digits; [acc] is [None] until a digit was
      read. *)
Fixpoint digits (s : string) (acc : option Z) : option Z :=
    match s with
    | EmptyString => acc
    | String c s' =>
        match digit_of c with
        | Some d => digits s' (Some (10 * default 0%Z acc + d)%Z)
        | None => acc
        end
    end.

  (** [parseInt(s, 10)]; [None] is [NaN].  The integer is kept exactly where
      JavaScript rounds it to a double (beyond 2^53), far outside any option
      range. *)
Definition parseInt (s : string) : option Z :=
    match skip_space s with
    | String "-" s' => Z.opp <$> digits s' None
    | String "+" s' => digits s' None
    | s' => digits s' None
    end.

End Text.

(* ===================================================================== *)
(** ** Data model                                                         *)
(* ===================================================================== *)

(** A row of the question sheet, as [readQuestions] builds it.  [passage]
    and [rationale] are [None] when the row has no such cell. *)
Module Question.
Record t := mk {
    id : string;
    section : string;
    stem : string;
    passage : option string;
    options : list string;
    correct : Z;
    rationale : option string;
    difficulty : string
  }.
End Question.

(** The object pushed on [session.answers]. *)
Module Answer.
Record t := mk {
    qid : string;
    section : string;
    selected : Z;
    correct : Z;
    isCorrect : bool;
    latency : Z
  }.
End Answer.

(** The object handed to [appendAttempt]; [attempt_id] is kept as its three
    components (user, question, clock). *)
Module Attempt.
Record t := mk {
    attempt_id : string * string * Z;
    user_id : string;
    qid : string;
    section : string;
    selected : Z;
    correct : Z;
    is_correct : bool;
    latency_ms : Z
  }.
End Attempt.

Inductive State := IDLE | ASKING | WAITING_ANSWER.

Global Instance State_eq_dec : EqDecision State.
Proof. solve_decision. Defined.

Record Session := mkSession {
  state : State;
  sectionIndex : Z;
  asked : list string;
  answers : list Answer.t;
  qStart : Z;
  currentQ : option Question.t
}.

(** The default session of the handler, built when the store has none. *)
Definition freshSession (now : Z) : Session :=
  {| state := IDLE; sectionIndex := 0; asked := []; answers := [];
     qStart := now; currentQ := None |}.

Definition SECTIONS : list string :=
  ["Inference"; "Assumptions"; "Deduction"; "Interpretation"; "Arguments"].

(** [SECTIONS[i]]: [undefined] outside the array. *)
Definition section_at (i : Z) : option string :=
  if (i <? 0)%Z then None else SECTIONS !! Z.to_nat i.

(* ===================================================================== *)
(** ** Session helpers: the in-memory fallback store                      *)
(* ===================================================================== *)

Module Store.
Section WithValue.
Context {V : Type}.

    (** An entry [{ value, expires }] of [memStore]. *)
Record entry := mkEntry { value : V; expires : Z }.

    (** [memGet(key)], run when [Date.now()] reads [now]: the value read and
        the store left behind.  [rec.expires && ...]: an expiry of 0 is
        falsy and never expires. *)
Definition memGet (now : Z) (key : string) (memStore : gmap string entry)
      : option V * gmap string entry :=
      match memStore !! key with
      | None => (None, memStore)
      | Some rec =>
          if negb (expires rec =? 0)%Z && (expires rec <? now)%Z
          then (None, delete key memStore)
          else (Some (value rec), memStore)
      end.

    (** [memSet(key, val, ttl)], run when [Date.now()] reads [now]. *)
Definition memSet (now : Z) (key : string) (val : V) (ttl : Z)
        (memStore : gmap string entry) : gmap string entry :=
      <[key := {| value := val; expires := now + ttl * 1000 |}]> memStore.
End WithValue.
Global Arguments entry : clear implicits.

Definition default_ttl : Z := 3600.
End Store.

(* ===================================================================== *)
(** ** Question logic                                                     *)
(* ===================================================================== *)

(** [qs.filter(q => q.section === section && !askedIds.has(q.id))]. *)
Definition pool (qs : list Question.t) (section : option string)
    (askedIds : gset string) : list Question.t :=
  filter (λ q, Some (Question.section q) = section ∧ Question.id q ∉ askedIds) qs.

(** [Math.random()] returns a multiple of 2^-53 in [0, 1); [random] is its
    numerator.  [Math.floor(Math.random() * n)] is computed on the exact
    product.  The code floors the product rounded to a double, which at a
    tie can be the next position; either way the position lies inside the
    pool, and nothing below depends on which position a draw selects. *)
Definition random_den : N := 2 ^ 53.

Definition random_index (random : N) (n : nat) : nat :=
  N.to_nat ((random * N.of_nat n) / random_den).

Definition pickNextQuestion (random : N) (qs : list Question.t)
    (section : option string) (askedIds : gset string) : option Question.t :=
  let pool := pool qs section askedIds in
  if (length pool =? 0)%nat then None
  else pool !! random_index random (length pool).

(* ===================================================================== *)
(** ** Scoring                                                            *)
(* ===================================================================== *)

(** The per-section record [{ total, correct, wrongIds }]. *)
Module Stats.
Record t := mk { total : nat; correct : nat; wrongIds : list string }.
End Stats.

(** One turn of the loop [for (const a of session.answers)]:
    [bySection[a.section] ??= { total: 0, correct: 0, wrongIds: [] }], then
    the three updates.  The keys are section names; in the sessions the
    handler builds they are names of [SECTIONS] (see [inv_sections]), so the
    properties an empty object inherits are never hit.  Under a name of
    [inherited_keys] the code would find the inherited value instead of
    creating a record; the map does not model that, and the properties below
    that go beyond the names of [SECTIONS] exclude those names. *)
Definition tally (bySection : gmap string Stats.t) (a : Answer.t)
  : gmap string Stats.t :=
  let m := default (Stats.mk 0 0 []) (bySection !! Answer.section a) in
  let m := Stats.mk (S (Stats.total m)) (Stats.correct m) (Stats.wrongIds m) in
  let m :=
    if Answer.isCorrect a
    then Stats.mk (Stats.total m) (S (Stats.correct m)) (Stats.wrongIds m)
    else Stats.mk (Stats.total m) (Stats.correct m)
           (Stats.wrongIds m ++ [Answer.qid a]) in
  <[Answer.section a := m]> bySection.

Definition bySection (answers : list Answer.t) : gmap string Stats.t :=
  foldl tally ∅ answers.

(** The loop over [SECTIONS] that adds up [(totalCorrect, total)]. *)
Definition add_section (by_section : gmap string Stats.t)
    (acc : nat * nat) (s : string) : nat * nat :=
  match by_section !! s with
  | None => acc
  | Some m => (fst acc + Stats.correct m, snd acc + Stats.total m)
  end.

Definition totals (by_section : gmap string Stats.t) : nat * nat :=
  foldl (add_section by_section) (0, 0) SECTIONS.

(** [Math.round(n / d)] for [d > 0]: the nearest integer, a tie going up.
    The quotient is taken exactly; the double the code computes rounds the
    same way as long as [d] stays below 2^45. *)
Definition round_div (n d : nat) : nat := (2 * n + d) / (2 * d).

(** [total ? Math.round((100 * totalCorrect) / total) : 0]. *)
Definition percentage (totalCorrect total : nat) : nat :=
  if (total =? 0)%nat then 0 else round_div (100 * totalCorrect) total.

(** The mark in front of a feedback line, byte for byte as the template of
    [rationaleLines.push] has it in [src/index.js]. *)
Definition bullet : string := "â€¢ ".
Definition newline : string := String (ascii_of_nat 10) EmptyString.

Definition find_question (qid : string) (questions : list Question.t)
  : option Question.t :=
  List.find (λ q, bool_decide (Question.id q = qid)) questions.

(** One turn of the loop over [SECTIONS] that collects [rationaleLines]. *)
Definition add_rationale (by_section : gmap string Stats.t)
    (questions : list Question.t) (lines : list string) (s : string)
  : list string :=
  match by_section !! s with
  | None => lines
  | Some m =>
      match Stats.wrongIds m with
      | [] => lines
      | w :: _ =>
          match find_question w questions with
          | Some qWrong =>
              match Question.rationale qWrong with
              | Some EmptyString | None => lines
              | Some r => lines ++ [(bullet ++ s ++ ": " ++ r)%string]
              end
          | None => lines
          end
      end
  end.

Definition rationaleLines (by_section : gmap string Stats.t)
    (questions : list Question.t) : list string :=
  foldl (add_rationale by_section questions) [] SECTIONS.

Definition summary (lines : list string) : string :=
  match lines with
  | [] => EmptyString
  | _ => (newline ++ newline ++ "Feedback:" ++ newline
          ++ String.concat newline lines)%string
  end.

(* ===================================================================== *)
(** ** The webhook handler                                                *)
(* ===================================================================== *)

(** What one POST brings in: the sender, the trimmed body, the sheet as
    [readQuestions] returns it for this request, the draw of
    [Math.random()] and the clock (one reading of [Date.now()] stands for
    the few the handler makes within a request). *)
Record Input := mkInput {
  from : string;
  body : string;
  questions : list Question.t;
  random : N;
  now : Z
}.

(** The texts passed to [sendWA], with the values interpolated in them. *)
Inductive Reply :=
| Started
| PleaseReply (optionCount : nat)
| TestComplete (totalCorrect total pct : nat) (feedback : string)
| Skipping (section : option string)
| Ask (section : option string) (q : Question.t).

Inductive Effect :=
| SendWA (to : string) (r : Reply)
| SetSession (key : string) (s : Session)
| AppendAttempt (a : Attempt.t).

(** How the handler ends: [res.sendStatus(200)], or the [TypeError] of
    reading [options] of [null]. *)
Inductive Completion := Responded | Threw.

Record Outcome := mkOutcome {
  session_after : Session;
  trace : list Effect;
  completion : Completion
}.

(** A block either falls through to the next one or returns from the
    handler. *)
Inductive Flow :=
| Continue (s : Session) (t : list Effect)
| Return (o : Outcome).

(** Block "Start test". *)
Definition startTest (i : Input) (s : Session) : Session * list Effect :=
  if bool_decide (state s = IDLE) && Text.start_pattern (body i) then
    ({| state := ASKING; sectionIndex := 0; asked := asked s; answers := [];
        qStart := qStart s; currentQ := currentQ s |},
     [SendWA (from i) Started])
  else (s, []).

Definition make_answer (q : Question.t) (num latency : Z) : Answer.t :=
  {| Answer.qid := Question.id q;
     Answer.section := Question.section q;
     Answer.selected := num;
     Answer.correct := Question.correct q;
     Answer.isCorrect := bool_decide (num = Question.correct q);
     Answer.latency := latency |}.

Definition make_attempt (i : Input) (q : Question.t) (num latency : Z)
  : Attempt.t :=
  {| Attempt.attempt_id := (from i, Question.id q, now i);
     Attempt.user_id := from i;
     Attempt.qid := Question.id q;
     Attempt.section := Question.section q;
     Attempt.selected := num;
     Attempt.correct := Question.correct q;
     Attempt.is_correct := bool_decide (num = Question.correct q);
     Attempt.latency_ms := latency |}.

(** [Number.isNaN(num) || num < 1 || num > q.options.length]. *)
Definition invalid_choice (num : option Z) (q : Question.t) : bool :=
  match num with
  | None => true
  | Some n => (n <? 1)%Z || (Z.of_nat (length (Question.options q)) <? n)%Z
  end.

(** Block "Record answer".  With [q] null the guard [!q || ...] holds and
    the reply template reads [q.options.length], which throws. *)
Definition recordAnswer (i : Input) (s : Session) : Flow :=
  if bool_decide (state s = WAITING_ANSWER) then
    let num := Text.parseInt (body i) in
    match currentQ s with
    | None => Return (mkOutcome s [] Threw)
    | Some q =>
        if invalid_choice num q then
          Return (mkOutcome s
                    [SendWA (from i) (PleaseReply (length (Question.options q)))]
                    Responded)
        else
          let n := default 0%Z num in
          let latency := (now i - qStart s)%Z in
          Continue
            {| state := ASKING; sectionIndex := sectionIndex s;
               asked := asked s;
               answers := answers s ++ [make_answer q n latency];
               qStart := qStart s; currentQ := None |}
            [AppendAttempt (make_attempt i q n latency)]
    end
  else Continue s [].

(** The set of ids already answered in [section]. *)
Definition askedIds (s : Session) (section : option string) : gset string :=
  list_to_set
    (Answer.qid <$>
       filter (λ a, Some (Answer.section a) = section) (answers s)).

(** The branch [sectionIndex >= SECTIONS.length] of "Ask next question". *)
Definition score (i : Input) (s : Session) : Outcome :=
  let by_section := bySection (answers s) in
  let '(totalCorrect, total) := totals by_section in
  let pct := percentage totalCorrect total in
  let feedback := summary (rationaleLines by_section (questions i)) in
  let s' := {| state := IDLE; sectionIndex := sectionIndex s;
               asked := asked s; answers := answers s;
               qStart := qStart s; currentQ := currentQ s |} in
  mkOutcome s'
    [SendWA (from i) (TestComplete totalCorrect total pct feedback);
     SetSession (from i) s']
    Responded.

Definition next_section (s : Session) : Session :=
  {| state := state s; sectionIndex := sectionIndex s + 1; asked := asked s;
     answers := answers s; qStart := qStart s; currentQ := currentQ s |}.

(** Block "Ask next question", then the closing [setSession]. *)
Definition askNext (i : Input) (s : Session) : Outcome :=
  if bool_decide (state s = ASKING) then
    if (Z.of_nat (length SECTIONS) <=? sectionIndex s)%Z then score i s
    else
      let section := section_at (sectionIndex s) in
      match pickNextQuestion (random i) (questions i) section
              (askedIds s section) with
      | None =>
          let s' := next_section s in
          mkOutcome s'
            [SetSession (from i) s'; SendWA (from i) (Skipping section)]
            Responded
      | Some q =>
          let s' := {| state := WAITING_ANSWER;
                       sectionIndex := sectionIndex s + 1;
                       asked := asked s; answers := answers s;
                       qStart := now i; currentQ := Some q |} in
          mkOutcome s'
            [SendWA (from i) (Ask section q); SetSession (from i) s']
            Responded
      end
  else mkOutcome s [SetSession (from i) s] Responded.

Definition prepend (t : list Effect) (o : Outcome) : Outcome :=
  mkOutcome (session_after o) (t ++ trace o) (completion o).

(** The handler, run on the session it loaded (or defaulted). *)
Definition handler (i : Input) (s : Session) : Outcome :=
  let '(s1, t1) := startTest i s in
  match recordAnswer i s1 with
  | Return o => prepend t1 o
  | Continue s2 t2 => prepend (t1 ++ t2) (askNext i s2)
  end.

(** [(await getSession(userId)) || { state: "IDLE", ... }]. *)
Definition webhook (i : Input) (stored : option Session) : Outcome :=
  handler i (default (freshSession (now i)) stored).

(** The messages sent, in order. *)
Definition replies (o : Outcome) : list Reply :=
  omap (λ e, match e with SendWA _ r => Some r | _ => None end) (trace o).

(** The sessions handed to [setSession], in order, and the last of them. *)
Definition saved (t : list Effect) : list Session :=
  omap (λ e, match e with SetSession _ s => Some s | _ => None end) t.

Definition persisted (o : Outcome) : option Session := last (saved (trace o)).

(** Sessions the handler can be handed: the default one, and whatever an
    earlier message left behind. *)
Inductive reachable : Session → Prop :=
| reach_fresh now : reachable (freshSession now)
| reach_step i s : reachable s → reachable (session_after (handler i s)).

(* ===================================================================== *)
(** ** The handler on the in-memory store                                *)
(* ===================================================================== *)

(** What [setSession] does to [memStore] when no Redis is configured; the
    other effects leave it alone. *)
Definition apply_effect (now : Z) (memStore : gmap string (Store.entry Session))
    (e : Effect) : gmap string (Store.entry Session) :=
  match e with
  | SetSession key s => Store.memSet now key s Store.default_ttl memStore
  | _ => memStore
  end.

(** One request: [getSession], the handler, and its writes. *)
Definition serve (i : Input) (memStore : gmap string (Store.entry Session))
  : Outcome * gmap string (Store.entry Session) :=
  let '(stored, memStore1) := Store.memGet (now i) (from i) memStore in
  let o := webhook i stored in
  (o, foldl (apply_effect (now i)) memStore1 (trace o)).

Definition store_reachable (memStore : gmap string (Store.entry Session)) : Prop :=
  ∀ key rec, memStore !! key = Some rec → reachable (Store.value rec).

(* ===================================================================== *)
(** ** The properties, stated on the data                                *)
(* ===================================================================== *)

(** The start vocabulary as the specification words it: the text is, up to
    letter case, the word "start" or the word "test". *)
Definition is_start_word (body : string) : bool :=
  Text.ci_whole "start" body || Text.ci_whole "test" body.

(** The text does not parse, or parses to a value outside
    [1 .. optionCount]. *)
Definition bad_choice (text : string) (optionCount : nat) : Prop :=
  Text.parseInt text = None ∨
  ∃ n, Text.parseInt text = Some n ∧ (n < 1 ∨ Z.of_nat optionCount < n)%Z.

(** The answers given in one section, in the order they were given. *)
Definition in_section (s : string) (l : list Answer.t) : list Answer.t :=
  filter (λ a, Answer.section a = s) l.

(** The three figures of a section, counted directly on its answers. *)
Definition stats_of (l : list Answer.t) : Stats.t :=
  {| Stats.total := length l;
     Stats.correct := length (filter (λ a, Answer.isCorrect a = true) l);
     Stats.wrongIds := Answer.qid <$> filter (λ a, Answer.isCorrect a = false) l |}.

Definition entry_of (l : list Answer.t) : option Stats.t :=
  match l with [] => None | _ => Some (stats_of l) end.

(** What one turn of the loop does to the record it found or created. *)
Definition count_answer (m : Stats.t) (a : Answer.t) : Stats.t :=
  if Answer.isCorrect a
  then Stats.mk (S (Stats.total m)) (S (Stats.correct m)) (Stats.wrongIds m)
  else Stats.mk (S (Stats.total m)) (Stats.correct m)
         (Stats.wrongIds m ++ [Answer.qid a]).

Definition section_total (l : list Answer.t) (s : string) : nat :=
  Stats.total (stats_of (in_section s l)).

Definition section_correct (l : list Answer.t) (s : string) : nat :=
  Stats.correct (stats_of (in_section s l)).

(** [Math.round] as the specification uses it, on exact rationals: the
    nearest integer, a half going up. *)
Definition round_half_up (x : Q) : Z := Qfloor (x + (1 # 2)).

Definition percentage_spec (totalCorrect total : nat) : Z :=
  if decide (total = 0) then 0%Z
  else round_half_up (inject_Z (100 * Z.of_nat totalCorrect) / inject_Z (Z.of_nat total)).

(** The first incorrect answer of a section, if it has one. *)
Definition first_incorrect (l : list Answer.t) (s : string) : option Answer.t :=
  head (filter (λ a, Answer.isCorrect a = false) (in_section s l)).

(** The feedback line of a section as the specification words it: the
    section has an incorrect answer, the question of the first one is in the
    sheet, and its rationale is present and not empty. *)
Definition feedback_line (l : list Answer.t) (questions : list Question.t)
    (s : string) : option string :=
  a ← first_incorrect l s;
  qWrong ← find_question (Answer.qid a) questions;
  r ← Question.rationale qWrong;
  if decide (r = EmptyString) then None else Some (bullet ++ s ++ ": " ++ r)%string.

(** The incorrect answers of a section, in the order they were given. *)
Definition wrong_in (l : list Answer.t) (s : string) : list Answer.t :=
  filter (λ a, Answer.section a = s ∧ Answer.isCorrect a = false) l.

(** [q] is the first question of the sheet whose id is [qid]. *)
Definition first_with_id (questions : list Question.t) (qid : string)
    (q : Question.t) : Prop :=
  ∃ before rest,
    questions = before ++ q :: rest ∧ Question.id q = qid ∧
    ∀ p, p ∈ before → Question.id p ≠ qid.

(** The section has an incorrect answer, and the question of the first one
    is in the sheet with the present, non-empty rationale [r]. *)
Definition has_feedback (l : list Answer.t) (questions : list Question.t)
    (s r : string) : Prop :=
  ∃ a more q,
    wrong_in l s = a :: more ∧ first_with_id questions (Answer.qid a) q ∧
    Question.rationale q = Some r ∧ r ≠ EmptyString.

(** The feedback lines asked for over a list of sections, taken in order: a
    section that has feedback gives its one line, any other section gives
    nothing. *)
Inductive feedback_for (l : list Answer.t) (questions : list Question.t)
  : list string → list string → Prop :=
| feedback_end : feedback_for l questions [] []
| feedback_one s sections r lines :
    has_feedback l questions s r →
    feedback_for l questions sections lines →
    feedback_for l questions (s :: sections)
      (("â€¢ " ++ s ++ ": " ++ r)%string :: lines)
| feedback_skip s sections lines :
    (∀ r, ¬ has_feedback l questions s r) →
    feedback_for l questions sections lines →
    feedback_for l questions (s :: sections) lines.

(** The feedback block of the completion message, written out: nothing
    without lines, and otherwise two line feeds, the heading, a line feed,
    and the lines with a line feed between them. *)
Definition feedback_text (lines : list string) : string :=
  match lines with
  | [] => EmptyString
  | first :: more =>
      String "010" (String "010" ("Feedback:" ++
        String "010" (first ++
          foldr (λ line text, String "010" (line ++ text)) EmptyString more)))%string
  end.

(** Number of leading sections whose answer may already be in [answers]: a
    pending question has used up an index but has no answer yet. *)
Definition answered_bound (s : Session) : Z :=
  if bool_decide (state s = WAITING_ANSWER) then (sectionIndex s - 1)%Z
  else sectionIndex s.

Record session_inv (s : Session) : Prop := {
  inv_index : (0 ≤ sectionIndex s ≤ Z.of_nat (length SECTIONS))%Z;
  inv_nodup : NoDup (Answer.section <$> answers s);
  inv_sections : ∀ a, a ∈ answers s →
    ∃ k, (0 ≤ k < answered_bound s)%Z ∧ section_at k = Some (Answer.section a);
  inv_pending : state s = WAITING_ANSWER →
    ∃ q, currentQ s = Some q ∧ (1 ≤ sectionIndex s)%Z ∧
         section_at (sectionIndex s - 1) = Some (Question.section q)
}.

(* ===================================================================== *)
(** ** Sample data                                                       *)
(* ===================================================================== *)

Definition demo_question : Question.t :=
  {| Question.id := "Q-17"; Question.section := "Assumptions";
     Question.stem := "Is the assumption made?"; Question.passage := None;
     Question.options := ["Assumption made"; "Assumption not made"];
     Question.correct := 2; Question.rationale := Some "It is taken for granted.";
     Question.difficulty := "M" |}.

Definition demo_waiting : Session :=
  {| state := WAITING_ANSWER; sectionIndex := 2; asked := []; answers := [];
     qStart := 1000; currentQ := Some demo_question |}.

Definition demo_inference : Question.t :=
  {| Question.id := "Q-03"; Question.section := "Inference";
     Question.stem := "Does the inference follow?"; Question.passage := Some "A short passage.";
     Question.options := ["True"; "Probably true"; "Insufficient data"; "Probably false"; "False"];
     Question.correct := 3; Question.rationale := Some "The passage gives no figures.";
     Question.difficulty := "H" |}.

Definition demo_sheet : list Question.t := [demo_inference; demo_question].

Definition demo_input (text : string) : Input :=
  mkInput "whatsapp:+100" text demo_sheet (2 ^ 52) 5000.

(** "start" in IDLE: the acknowledgment and, in the same message, the first
    question. *)
Definition demo_started : Session :=
  session_after (handler (demo_input "start") (freshSession 0)).

(** "3": the Inference answer is recorded and the Assumptions question
    sent. *)
Definition demo_answered : Session :=
  session_after (handler (demo_input "3") demo_started).

(** "1": the Assumptions answer is recorded; the sheet has no Deduction
    question, so that section is skipped. *)
Definition demo_skipped : Session :=
  session_after (handler (demo_input "1") demo_answered).

(** A sheet with one question per section, each with two options of which
    the first is the correct one. *)
Definition full_question (section : string) : Question.t :=
  {| Question.id := (String.substring 0 3 section ++ "-1")%string;
     Question.section := section;
     Question.stem := "Stem";
     Question.passage := None;
     Question.options := ["Yes"; "No"];
     Question.correct := 1;
     Question.rationale :=
       Some ("Rationale of " ++ String.substring 0 3 section ++ "-1")%string;
     Question.difficulty := "M" |}.

Definition full_sheet : list Question.t := full_question <$> SECTIONS.

Definition full_input (text : string) : Input :=
  mkInput "whatsapp:+200" text full_sheet 0 9000.

(** The session after a sequence of messages, all served from [sheet]. *)
Definition run (sheet : list Question.t) (texts : list string) (s : Session)
  : Session :=
  foldl (λ s text, session_after (handler (mkInput "whatsapp:+200" text sheet 0 9000) s))
    s texts.

(* ===================================================================== *)
(** ** Further notions used by the properties                            *)
(* ===================================================================== *)

(** The attempts handed to [appendAttempt], in order. *)
Definition attempts (t : list Effect) : list Attempt.t :=
  omap (λ e, match e with AppendAttempt a => Some a | _ => None end) t.

(** The fields an attempt row shares with the answer it logs. *)
Definition attempt_fields (a : Attempt.t) : string * string * Z * Z * bool * Z :=
  (Attempt.qid a, Attempt.section a, Attempt.selected a, Attempt.correct a,
   Attempt.is_correct a, Attempt.latency_ms a).

Definition answer_fields (a : Answer.t) : string * string * Z * Z * bool * Z :=
  (Answer.qid a, Answer.section a, Answer.selected a, Answer.correct a,
   Answer.isCorrect a, Answer.latency a).

(** The session the record block builds from a valid choice [n]. *)
Definition recorded (i : Input) (s : Session) (q : Question.t) (n : Z) : Session :=
  {| state := ASKING; sectionIndex := sectionIndex s; asked := asked s;
     answers := answers s ++ [make_answer q n (now i - qStart s)];
     qStart := qStart s; currentQ := None |}.

(** The session the start block builds. *)
Definition started (s : Session) : Session :=
  {| state := ASKING; sectionIndex := 0; asked := asked s; answers := [];
     qStart := qStart s; currentQ := currentQ s |}.

(** The text is one the record block takes up: any text while no answer is
    awaited, and otherwise one that parses into the option range of the
    pending question. *)
Definition taken (s : Session) (i : Input) : bool :=
  match state s, currentQ s with
  | WAITING_ANSWER, Some q => negb (invalid_choice (Text.parseInt (body i)) q)
  | WAITING_ANSWER, None => false
  | _, _ => true
  end.

(** All the requests of a sequence are taken up, each by the session the
    earlier ones left. *)
Fixpoint all_taken (s : Session) (inputs : list Input) : bool :=
  match inputs with
  | [] => true
  | i :: inputs => taken s i && all_taken (session_after (handler i s)) inputs
  end.

(** The session after a sequence of requests. *)
Definition after (inputs : list Input) (s : Session) : Session :=
  foldl (λ s i, session_after (handler i s)) s inputs.

(** The store after a sequence of requests, starting with an empty one. *)
Definition serve_all (inputs : list Input) : gmap string (Store.entry Session) :=
  foldl (λ memStore i, snd (serve i memStore)) ∅ inputs.

(** [`${n}`] for a count [n]: its decimal numeral. *)
Definition decimal (n : nat) : string :=
  NilEmpty.string_of_uint (Nat.to_uint n).

(** [q.options.map((o, i) => `${i + 1}) ${o}`)]: the numbered option lines
    of the question message. *)
Definition option_lines (q : Question.t) : list string :=
  imap (λ i o, (decimal (i + 1) ++ ") " ++ o)%string) (Question.options q).

(** The session of the full sheet that waits for its fifth answer. *)
Definition full_last : Session :=
  run full_sheet ["start"; "1"; "2"; "1"; "1"] (freshSession 0).

(** A store that holds the waiting sample session, written at time 1000. *)
Definition demo_store : gmap string (Store.entry Session) :=
  Store.memSet 1000 "whatsapp:+100" demo_waiting Store.default_ttl ∅.

(** Requests that take the sample run from its first question to its end. *)
Definition demo_rest : list Input :=
  [demo_input "3"; demo_input "1"; demo_input "go on"; demo_input "go on";
   demo_input "go on"].

(** The character is the letter given, in lower or in upper case. *)
Definition either_case (lower upper c : ascii) : Prop := c = lower ∨ c = upper.

(** The property names every object literal inherits from
    [Object.prototype]: under these names [bySection[name]] of the scoring
    loop finds a value in the empty object. *)
Definition inherited_keys : list string :=
  ["constructor"; "__proto__"; "hasOwnProperty"; "isPrototypeOf";
   "propertyIsEnumerable"; "toLocaleString"; "toString"; "valueOf";
   "__defineGetter__"; "__defineSetter__"; "__lookupGetter__";
   "__lookupSetter__"].

(** A session at the end of the sections with one answer filed under a
    section name that is not among [SECTIONS]. *)
Definition demo_foreign : Session :=
  {| state := ASKING; sectionIndex := 5; asked := [];
     answers :=
       [make_answer demo_inference 3 10;
        {| Answer.qid := "Q-90"; Answer.section := "Other";
           Answer.selected := 1; Answer.correct := 2;
           Answer.isCorrect := false; Answer.latency := 5 |}];
     qStart := 0; currentQ := None |}.

(* ===================================================================== *)
(** ** Text helpers: examples                                            *)
(* ===================================================================== *)

Example parseInt_plain : Text.parseInt "3" = Some 3%Z.
Proof. reflexivity. Qed.

Example parseInt_trailing : Text.parseInt "2nd" = Some 2%Z.
Proof. reflexivity. Qed.

Example parseInt_nan : Text.parseInt "two" = None.
Proof. reflexivity. Qed.

Example parseInt_negative : Text.parseInt "-17" = Some (-17)%Z.
Proof. reflexivity. Qed.

(* ===================================================================== *)
(** ** The start trigger                                                  *)
(* ===================================================================== *)

Lemma ci_whole_prefix pat s : Text.ci_whole pat s = true → Text.ci_prefix pat s = true.
Proof.
  revert s. induction pat as [|p pat IH]; intros [|c s]; simpl; try done.
  rewrite !andb_true_iff. intros [? ?]. split; [done | by apply IH].
Qed.

Lemma ci_whole_suffix pat s : Text.ci_whole pat s = true → Text.ci_suffix pat s = true.
Proof. destruct s; simpl; intros ->; done. Qed.

(** Both start words, in any letter case, do set the trigger off. *)
Lemma start_words_match body :
  is_start_word body = true → Text.start_pattern body = true.
Proof.
  unfold is_start_word, Text.start_pattern. rewrite !orb_true_iff.
  intros [H | H]; [left; by apply ci_whole_prefix | right; by apply ci_whole_suffix].
Qed.

(** What the block does when its guard holds. *)
Lemma startTest_fires i s :
  state s = IDLE → Text.start_pattern (body i) = true →
  let s' := fst (startTest i s) in
  state s' = ASKING ∧ sectionIndex s' = 0%Z ∧ answers s' = [] ∧
  snd (startTest i s) = [SendWA (from i) Started].
Proof.
  intros Hs Hb. unfold startTest. rewrite Hb, bool_decide_eq_true_2 by done.
  simpl. done.
Qed.

(** And when it does not: nothing. *)
Lemma startTest_idle i s :
  state s ≠ IDLE ∨ Text.start_pattern (body i) = false →
  startTest i s = (s, []).
Proof.
  intros H. unfold startTest.
  destruct H as [H | H]; [rewrite bool_decide_eq_false_2 by done | rewrite H, andb_false_r]; done.
Qed.

(** C1.  The start block is meant to fire on the words "start" and "test"
    only; on the text "contest", which is neither, the pattern of the code
    matches (it ends in "test") and an IDLE session is put in ASKING with
    [sectionIndex] 0 and no answers. *)
Theorem start_fires_on_contest :
  let i := mkInput "whatsapp:+100" "contest" [] 0 0 in
  is_start_word (body i) = false ∧
  Text.start_pattern (body i) = true ∧
  startTest i (freshSession 0) =
    ({| state := ASKING; sectionIndex := 0; asked := []; answers := [];
        qStart := 0; currentQ := None |},
     [SendWA "whatsapp:+100" Started]).
Proof. vm_compute. done. Qed.

(** The same holds for a text that merely begins with "start". *)
Example start_fires_on_prefix :
  is_start_word "start over tomorrow" = false ∧
  Text.start_pattern "start over tomorrow" = true.
Proof. vm_compute. done. Qed.

(* ===================================================================== *)
(** ** Answer validation                                                  *)
(* ===================================================================== *)

Lemma invalid_choice_iff text q :
  invalid_choice (Text.parseInt text) q = true ↔
  bad_choice text (length (Question.options q)).
Proof.
  unfold invalid_choice, bad_choice. destruct (Text.parseInt text) as [n|].
  - rewrite orb_true_iff, !Z.ltb_lt. split.
    + intros H. right. exists n. done.
    + intros [? | (m & [= <-] & ?)]; done.
  - split; [by left | done].
Qed.

(** C2.  In WAITING_ANSWER with a pending question, a text that does not
    parse as an integer, or parses to a value outside
    [1 .. len(currentQuestion.options)], leaves the whole session as it was,
    persists nothing, and the validation prompt is the only effect of the
    message. *)
Theorem invalid_answer_keeps_session (i : Input) (s : Session) (q : Question.t) :
  state s = WAITING_ANSWER →
  currentQ s = Some q →
  bad_choice (body i) (length (Question.options q)) →
  session_after (handler i s) = s ∧
  persisted (handler i s) = None ∧
  replies (handler i s) = [PleaseReply (length (Question.options q))] ∧
  trace (handler i s) = [SendWA (from i) (PleaseReply (length (Question.options q)))] ∧
  completion (handler i s) = Responded.
Proof.
  intros Hst Hq Hbad. apply invalid_choice_iff in Hbad.
  unfold handler. rewrite startTest_idle by (left; congruence).
  unfold recordAnswer. rewrite bool_decide_eq_true_2, Hq, Hbad by done.
  done.
Qed.

Lemma invalid_answer_keeps_session_witness :
  let i := mkInput "whatsapp:+100" "3" [demo_question] 0 2000 in
  state demo_waiting = WAITING_ANSWER ∧
  currentQ demo_waiting = Some demo_question ∧
  bad_choice (body i) (length (Question.options demo_question)) ∧
  session_after (handler i demo_waiting) = demo_waiting ∧
  replies (handler i demo_waiting) = [PleaseReply 2].
Proof.
  intros i.
  assert (Hbad : bad_choice (body i) (length (Question.options demo_question))).
  { right. exists 3%Z. split; [reflexivity | right; simpl; lia]. }
  split; [reflexivity|]. split; [reflexivity|]. split; [exact Hbad|].
  destruct (invalid_answer_keeps_session i demo_waiting demo_question
              eq_refl eq_refl Hbad) as (H1 & _ & H3 & _).
  split; [exact H1 | exact H3].
Defined.

(* ===================================================================== *)
(** ** The question selector                                              *)
(* ===================================================================== *)

Lemma elem_of_pool q qs section asked_ids :
  q ∈ pool qs section asked_ids ↔
  q ∈ qs ∧ Some (Question.section q) = section ∧ Question.id q ∉ asked_ids.
Proof. unfold pool. rewrite list_elem_of_filter. tauto. Qed.

(** A draw in [0, 1) indexes inside the pool. *)
Lemma random_index_lt random n :
  (random < random_den)%N → (0 < n)%nat → (random_index random n < n)%nat.
Proof.
  intros Hr Hn. unfold random_index.
  assert (random * N.of_nat n / random_den < N.of_nat n)%N; [|lia].
  apply N.Div0.div_lt_upper_bound. nia.
Qed.

Lemma pickNextQuestion_None random qs section asked_ids :
  (random < random_den)%N →
  pickNextQuestion random qs section asked_ids = None ↔
  pool qs section asked_ids = [].
Proof.
  intros Hr. unfold pickNextQuestion.
  destruct (pool qs section asked_ids) as [|q0 l] eqn:Hp; simpl; [done|].
  split; [|done]. intros Hnone. apply lookup_ge_None in Hnone.
  pose proof (random_index_lt random (S (length l)) Hr). simpl in *. lia.
Qed.

(** Whatever the draw, a question that is returned comes from the pool. *)
Lemma pickNextQuestion_Some random qs section asked_ids q :
  pickNextQuestion random qs section asked_ids = Some q →
  q ∈ pool qs section asked_ids.
Proof.
  unfold pickNextQuestion. case_match; [done|].
  intros Hl. by apply list_elem_of_lookup_2 in Hl.
Qed.

(** An empty pool yields no question, whatever the draw. *)
Lemma pickNextQuestion_empty random qs section asked_ids :
  pool qs section asked_ids = [] →
  pickNextQuestion random qs section asked_ids = None.
Proof. unfold pickNextQuestion. by intros ->. Qed.

(** C3.  For a draw of [Math.random()] in [0, 1), [pickNextQuestion] returns
    absent exactly when no question of the list has the target section and
    an id outside the asked set; a question it returns is one of the list,
    has the target section, and its id is not in the asked set. *)
Theorem pickNextQuestion_spec random (qs : list Question.t) (section : string)
    (asked_ids : gset string) :
  (random < random_den)%N →
  (pickNextQuestion random qs (Some section) asked_ids = None ↔
     ¬ ∃ q, q ∈ qs ∧ Question.section q = section ∧ Question.id q ∉ asked_ids) ∧
  (∀ q, pickNextQuestion random qs (Some section) asked_ids = Some q →
     q ∈ qs ∧ Question.section q = section ∧ Question.id q ∉ asked_ids).
Proof.
  intros Hr. split.
  - rewrite pickNextQuestion_None by done. split.
    + intros Hp (q & Hq & Hs & Hid).
      assert (q ∈ pool qs (Some section) asked_ids) as Hin
        by (apply elem_of_pool; rewrite Hs; done).
      rewrite Hp in Hin. by apply not_elem_of_nil in Hin.
    + intros Hno. destruct (pool qs (Some section) asked_ids) as [|q l] eqn:Hp; [done|].
      exfalso. apply Hno. exists q.
      assert (q ∈ pool qs (Some section) asked_ids) as Hin
        by (rewrite Hp; left).
      apply elem_of_pool in Hin. destruct Hin as (? & [= ?] & ?). done.
  - intros q Hq. apply pickNextQuestion_Some, elem_of_pool in Hq.
    destruct Hq as (? & [= ?] & ?). done.
Qed.

Lemma pickNextQuestion_spec_witness :
  (2 ^ 52 < random_den)%N ∧
  pickNextQuestion (2 ^ 52) [demo_inference; demo_question] (Some "Assumptions") ∅
    = Some demo_question ∧
  Question.section demo_question = "Assumptions" ∧
  Question.id demo_question ∉ (∅ : gset string).
Proof.
  assert (Hr : (2 ^ 52 < random_den)%N) by (vm_compute; reflexivity).
  split; [exact Hr|]. split; [vm_compute; reflexivity|].
  destruct (pickNextQuestion_spec (2 ^ 52) [demo_inference; demo_question]
              "Assumptions" ∅ Hr) as [_ H].
  destruct (H demo_question) as (_ & H1 & H2); [vm_compute; reflexivity|].
  split; [exact H1 | exact H2].
Defined.

(* ===================================================================== *)
(** ** The in-memory store: set, then get                                 *)
(* ===================================================================== *)

Section StoreProps.
Context {V : Type}.
Implicit Types memStore : gmap string (Store.entry V).

Lemma memGet_absent now key memStore :
  memStore !! key = None → Store.memGet now key memStore = (None, memStore).
Proof. unfold Store.memGet. by intros ->. Qed.

(** A read up to and including the expiry instant returns the value and
    leaves the store alone. *)
Lemma memGet_live now key memStore rec :
  memStore !! key = Some rec → (now ≤ Store.expires rec)%Z →
  Store.memGet now key memStore = (Some (Store.value rec), memStore).
Proof.
  unfold Store.memGet. intros -> Hle.
  replace (Store.expires rec <? now)%Z with false by (symmetry; apply Z.ltb_ge; lia).
  by rewrite andb_false_r.
Qed.

(** A read past a non-zero expiry instant evicts the entry. *)
Lemma memGet_expired now key memStore rec :
  memStore !! key = Some rec →
  Store.expires rec ≠ 0%Z → (Store.expires rec < now)%Z →
  Store.memGet now key memStore = (None, delete key memStore).
Proof.
  unfold Store.memGet. intros -> Hnz Hlt.
  replace (Store.expires rec =? 0)%Z with false by (symmetry; apply Z.eqb_neq; lia).
  replace (Store.expires rec <? now)%Z with true by (symmetry; apply Z.ltb_lt; lia).
  done.
Qed.

(** Other keys are not touched by a write. *)
Lemma memGet_memSet_other now t0 key key' (v : V) ttl memStore :
  key ≠ key' →
  fst (Store.memGet now key' (Store.memSet t0 key v ttl memStore)) =
  fst (Store.memGet now key' memStore).
Proof.
  intros Hne. unfold Store.memGet, Store.memSet.
  rewrite lookup_insert_ne by done.
  destruct (memStore !! key') as [rec|]; [|done]. by case_match.
Qed.

(** C7.  With the clock after the epoch and a non-negative [ttl] (seconds):
    after [memSet(key, v, ttl)] at [t0], a [memGet(key)] at a time [t1] not
    later than [t0 + ttl * 1000] ms returns [v] and keeps the store; at a
    time later than that it returns absent and the entry is removed. *)
Theorem memSet_memGet memStore key (v : V) (ttl t0 t1 : Z) :
  (0 < t0)%Z → (0 ≤ ttl)%Z →
  let stored := Store.memSet t0 key v ttl memStore in
  ((t1 ≤ t0 + ttl * 1000)%Z → Store.memGet t1 key stored = (Some v, stored)) ∧
  ((t0 + ttl * 1000 < t1)%Z →
     Store.memGet t1 key stored = (None, delete key memStore) ∧
     delete key memStore !! key = None ∧
     ∀ t2, Store.memGet t2 key (snd (Store.memGet t1 key stored))
           = (None, delete key memStore)).
Proof.
  intros Ht0 Httl stored.
  assert (Hrec : stored !! key = Some (Store.mkEntry v (t0 + ttl * 1000)))
    by apply lookup_insert_eq.
  split; intros Ht1.
  - by rewrite (memGet_live _ _ _ _ Hrec).
  - rewrite (memGet_expired _ _ _ _ Hrec) by (simpl; lia).
    unfold stored, Store.memSet. rewrite delete_insert_eq.
    split; [done|]. split; [apply lookup_delete_eq|].
    intros t2. apply memGet_absent, lookup_delete_eq.
Qed.

End StoreProps.

Lemma memSet_memGet_witness :
  let stored := Store.memSet 1000 "whatsapp:+100" demo_waiting 3600 ∅ in
  (0 < 1000)%Z ∧ (0 ≤ 3600)%Z ∧
  Store.memGet 3601000 "whatsapp:+100" stored = (Some demo_waiting, stored) ∧
  Store.memGet 3601001 "whatsapp:+100" stored = (None, delete "whatsapp:+100" ∅).
Proof.
  intros stored.
  assert (H0 : (0 < 1000)%Z) by lia. assert (H1 : (0 ≤ 3600)%Z) by lia.
  split; [exact H0|]. split; [exact H1|]. split.
  - apply (proj1 (memSet_memGet ∅ "whatsapp:+100" demo_waiting 3600 1000 3601000 H0 H1)).
    lia.
  - apply (proj2 (memSet_memGet ∅ "whatsapp:+100" demo_waiting 3600 1000 3601001 H0 H1)).
    lia.
Defined.

(* ===================================================================== *)
(** ** Scoring: what [bySection] holds                                    *)
(* ===================================================================== *)

Lemma tally_insert by_section a :
  tally by_section a =
  <[Answer.section a :=
      count_answer (default (Stats.mk 0 0 []) (by_section !! Answer.section a)) a]>
    by_section.
Proof. unfold tally, count_answer. by destruct (Answer.isCorrect a). Qed.

Lemma stats_of_snoc l a : stats_of (l ++ [a]) = count_answer (stats_of l) a.
Proof.
  unfold stats_of, count_answer. rewrite !filter_app, fmap_app, !length_app.
  destruct (Answer.isCorrect a) eqn:Hc; simpl.
  - rewrite (filter_cons_True _ a []), (filter_cons_False _ a []) by (rewrite ?Hc; done).
    rewrite filter_nil, app_nil_r. simpl. f_equal; lia.
  - rewrite (filter_cons_False _ a []), (filter_cons_True _ a []) by (rewrite ?Hc; done).
    rewrite filter_nil. simpl. f_equal; lia.
Qed.

Lemma default_entry_of l : default (Stats.mk 0 0 []) (entry_of l) = stats_of l.
Proof. by destruct l. Qed.

Lemma entry_of_snoc l a : entry_of (l ++ [a]) = Some (stats_of (l ++ [a])).
Proof. by destruct l. Qed.

Lemma in_section_snoc s l a :
  in_section s (l ++ [a]) =
  if decide (Answer.section a = s) then (in_section s l ++ [a])%list
  else in_section s l.
Proof.
  unfold in_section. rewrite filter_app. case_decide.
  - by rewrite (filter_cons_True _ a []).
  - rewrite (filter_cons_False _ a []) by done. by rewrite filter_nil, app_nil_r.
Qed.

(** The entry of [bySection] for a section: absent when the section has no
    answer, and otherwise the figures of its answers. *)
Lemma bySection_lookup l s : bySection l !! s = entry_of (in_section s l).
Proof.
  induction l as [|a l IH] using rev_ind; [done|].
  unfold bySection in *. rewrite foldl_snoc, tally_insert, in_section_snoc.
  case_decide as Hs.
  - subst s. rewrite lookup_insert_eq, IH, default_entry_of, entry_of_snoc.
    by rewrite stats_of_snoc.
  - by rewrite lookup_insert_ne.
Qed.

(* ===================================================================== *)
(** ** Scoring: totals and percentage                                     *)
(* ===================================================================== *)

Lemma section_correct_le l s : section_correct l s ≤ section_total l s.
Proof. apply length_filter. Qed.

Lemma sum_list_le {A} (f g : A → nat) (l : list A) :
  (∀ x, f x ≤ g x) → sum_list (f <$> l) ≤ sum_list (g <$> l).
Proof. intros H. induction l as [|x l IH]; csimpl; [done|]. specialize (H x). lia. Qed.

Lemma add_section_bySection l acc s :
  add_section (bySection l) acc s =
  (fst acc + section_correct l s, snd acc + section_total l s).
Proof.
  unfold add_section, section_correct, section_total.
  rewrite bySection_lookup. destruct acc as [c t].
  destruct (in_section s l); simpl; [f_equal; lia | done].
Qed.

Lemma add_section_fold l (sections : list string) acc :
  foldl (add_section (bySection l)) acc sections =
  (fst acc + sum_list (section_correct l <$> sections),
   snd acc + sum_list (section_total l <$> sections)).
Proof.
  revert acc. induction sections as [|s sections IH]; intros [c t]; csimpl.
  - f_equal; lia.
  - rewrite IH, add_section_bySection. simpl. f_equal; lia.
Qed.

Lemma totals_sums l :
  totals (bySection l) =
  (sum_list (section_correct l <$> SECTIONS), sum_list (section_total l <$> SECTIONS)).
Proof. unfold totals. by rewrite add_section_fold. Qed.

Lemma percentage_round totalCorrect total :
  Z.of_nat (percentage totalCorrect total) = percentage_spec totalCorrect total.
Proof.
  unfold percentage, percentage_spec. case_decide as Ht.
  - by subst.
  - rewrite (proj2 (Nat.eqb_neq _ _)) by done.
    unfold round_div, round_half_up. rewrite Nat2Z.inj_div, Zdiv_Qdiv.
    apply Qfloor_comp.
    replace (Z.of_nat (2 * (100 * totalCorrect) + total))
      with (2 * (100 * Z.of_nat totalCorrect) + Z.of_nat total)%Z by lia.
    replace (Z.of_nat (2 * total)) with (2 * Z.of_nat total)%Z by lia.
    rewrite !inject_Z_plus, !inject_Z_mult.
    assert (¬ inject_Z (Z.of_nat total) == 0)%Q.
    { change 0%Q with (inject_Z 0). rewrite inject_Z_injective. lia. }
    field. done.
Qed.

Lemma replies_score i s :
  replies (score i s) =
  [TestComplete (fst (totals (bySection (answers s))))
     (snd (totals (bySection (answers s))))
     (percentage (fst (totals (bySection (answers s))))
        (snd (totals (bySection (answers s)))))
     (summary (rationaleLines (bySection (answers s)) (questions i)))].
Proof. unfold score. by destruct (totals (bySection (answers s))). Qed.

(** C5.  The scoring step reports [totalCorrect], [total] and a percentage
    such that [totalCorrect ≤ total], [total] is the sum over the fixed
    section order of the number of answers of each section (and
    [totalCorrect] the sum of the correct ones), and the percentage is
    [round(100 * totalCorrect / total)], or 0 when [total] is 0. *)
Theorem score_figures (i : Input) (s : Session) :
  ∃ totalCorrect total pct feedback,
    replies (score i s) = [TestComplete totalCorrect total pct feedback] ∧
    totalCorrect ≤ total ∧
    total = sum_list (section_total (answers s) <$> SECTIONS) ∧
    totalCorrect = sum_list (section_correct (answers s) <$> SECTIONS) ∧
    Z.of_nat pct = percentage_spec totalCorrect total ∧
    (total = 0 → pct = 0).
Proof.
  eexists _, _, _, _. split; [apply replies_score|].
  rewrite totals_sums. cbn [fst snd].
  split; [apply sum_list_le, section_correct_le|].
  split; [done|]. split; [done|]. split; [apply percentage_round|].
  unfold percentage. by intros ->.
Qed.

(* ===================================================================== *)
(** ** Scoring: feedback lines                                            *)
(* ===================================================================== *)

Lemma add_rationale_line l questions lines s :
  add_rationale (bySection l) questions lines s =
  lines ++ option_list (feedback_line l questions s).
Proof.
  unfold add_rationale, feedback_line, first_incorrect.
  rewrite bySection_lookup.
  destruct (in_section s l) as [|a k]; [by rewrite app_nil_r|].
  cbn [entry_of stats_of Stats.wrongIds].
  destruct (filter _ (a :: k)) as [|w ws]; [by rewrite app_nil_r|].
  cbn [fmap list_fmap head mbind option_bind].
  destruct (find_question (Answer.qid w) questions) as [q|];
    [|by rewrite app_nil_r].
  cbn [mbind option_bind].
  destruct (Question.rationale q) as [[|c r]|]; cbn [mbind option_bind];
    try by rewrite app_nil_r.
  by rewrite decide_False.
Qed.

Lemma rationale_fold l questions (sections : list string) lines :
  foldl (add_rationale (bySection l) questions) lines sections =
  lines ++ omap (feedback_line l questions) sections.
Proof.
  revert lines. induction sections as [|s sections IH]; intros lines; csimpl.
  - by rewrite app_nil_r.
  - rewrite IH, add_rationale_line.
    destruct (feedback_line l questions s); simpl; [|by rewrite app_nil_r].
    by rewrite <- app_assoc.
Qed.

Lemma find_question_first qid questions q :
  find_question qid questions = Some q ↔ first_with_id questions qid q.
Proof.
  unfold find_question, first_with_id. split.
  - induction questions as [|x questions IH]; simpl; [done|].
    case_bool_decide as Hx.
    + intros [= <-]. exists [], questions. split; [done|]. split; [done|].
      intros p Hp. by apply elem_of_nil in Hp.
    + intros Hf. destruct (IH Hf) as (before & rest & -> & Hid & Hne).
      exists (x :: before), rest. split; [done|]. split; [done|].
      intros p Hp. apply elem_of_cons in Hp as [-> | Hp]; [done | by apply Hne].
  - intros (before & rest & -> & Hid & Hne).
    induction before as [|x before IH]; simpl.
    + by rewrite bool_decide_eq_true_2.
    + rewrite bool_decide_eq_false_2 by (apply Hne; left).
      apply IH. intros p Hp. apply Hne. by right.
Qed.

Lemma wrong_in_first l s :
  first_incorrect l s = head (wrong_in l s).
Proof.
  unfold first_incorrect, wrong_in, in_section. rewrite list_filter_filter.
  f_equal. apply list_filter_iff. tauto.
Qed.

Lemma bullet_bytes : bullet = "â€¢ ".
Proof. reflexivity. Qed.

Lemma feedback_line_has l questions s :
  match feedback_line l questions s with
  | Some line =>
      ∃ r, has_feedback l questions s r ∧ line = ("â€¢ " ++ s ++ ": " ++ r)%string
  | None => ∀ r, ¬ has_feedback l questions s r
  end.
Proof.
  unfold feedback_line, has_feedback. rewrite wrong_in_first, bullet_bytes.
  destruct (wrong_in l s) as [|a more] eqn:Hw; cbn [head mbind option_bind].
  { intros r (? & ? & ? & [=] & _). }
  destruct (find_question (Answer.qid a) questions) as [q|] eqn:Hq;
    cbn [mbind option_bind].
  - destruct (Question.rationale q) as [r|] eqn:Hr; cbn [mbind option_bind].
    + case_decide as He.
      * intros r' (a' & more' & q' & [= <- <-] & Hq' & Hr' & Hne).
        apply find_question_first in Hq'. rewrite Hq in Hq'. injection Hq' as <-.
        rewrite Hr in Hr'. injection Hr' as <-. done.
      * exists r. split; [|done]. exists a, more, q.
        by rewrite <- find_question_first.
    + intros r' (a' & more' & q' & [= <- <-] & Hq' & Hr' & Hne).
      apply find_question_first in Hq'. rewrite Hq in Hq'. injection Hq' as <-.
      by rewrite Hr in Hr'.
  - intros r' (a' & more' & q' & [= <- <-] & Hq' & _).
    apply find_question_first in Hq'. by rewrite Hq in Hq'.
Qed.

Lemma has_feedback_unique l questions s r r' :
  has_feedback l questions s r → has_feedback l questions s r' → r = r'.
Proof.
  intros (a & more & q & Hw & Hq & Hr & _) (a' & more' & q' & Hw' & Hq' & Hr' & _).
  rewrite Hw in Hw'. injection Hw' as <- <-.
  apply find_question_first in Hq, Hq'. rewrite Hq in Hq'. injection Hq' as <-.
  rewrite Hr in Hr'. by injection Hr'.
Qed.

Lemma feedback_for_omap l questions sections :
  feedback_for l questions sections (omap (feedback_line l questions) sections).
Proof.
  induction sections as [|s sections IH]; csimpl; [constructor|].
  pose proof (feedback_line_has l questions s) as Hs.
  destruct (feedback_line l questions s) as [line|].
  - destruct Hs as (r & Hr & ->). by constructor.
  - by constructor.
Qed.

Lemma feedback_for_unique l questions sections lines lines' :
  feedback_for l questions sections lines →
  feedback_for l questions sections lines' → lines = lines'.
Proof.
  intros H. revert lines'.
  induction H as [|s sections r lines Hr _ IH | s sections lines Hno _ IH];
    intros lines' H'; inversion H' as [|? ? r' k Hr' Hk | ? ? k Hno' Hk]; subst.
  - done.
  - rewrite (has_feedback_unique _ _ _ _ _ Hr Hr'). f_equal. by apply IH.
  - by destruct (Hno' r).
  - by destruct (Hno r').
  - by apply IH.
Qed.

Lemma string_app_cons c (u v : string) :
  (String c u ++ v)%string = String c (u ++ v)%string.
Proof. reflexivity. Qed.

Lemma concat_lines first more :
  String.concat newline (first :: more) =
  (first ++ foldr (λ line text, String "010" (line ++ text)) EmptyString more)%string.
Proof.
  revert first. induction more as [|next more IH]; intros first.
  - simpl. clear. induction first as [|x first IH]; [done|].
    rewrite string_app_cons. by rewrite <- IH.
  - change (String.concat newline (first :: next :: more))
      with (first ++ newline ++ String.concat newline (next :: more))%string.
    rewrite IH. done.
Qed.

Lemma summary_text lines : summary lines = feedback_text lines.
Proof.
  destruct lines as [|first more]; [done|].
  unfold summary, feedback_text. rewrite concat_lines. done.
Qed.

Lemma feedback_for_elem l questions sections lines s r :
  feedback_for l questions sections lines →
  s ∈ sections → has_feedback l questions s r →
  ("â€¢ " ++ s ++ ": " ++ r)%string ∈ lines.
Proof.
  induction 1 as [|s' sections r' lines Hr' _ IH | s' sections lines Hno _ IH];
    intros Hs Hr.
  - by apply elem_of_nil in Hs.
  - apply elem_of_cons in Hs as [-> | Hs].
    + rewrite (has_feedback_unique _ _ _ _ _ Hr Hr'). left.
    + right. by apply IH.
  - apply elem_of_cons in Hs as [-> | Hs]; [by destruct (Hno r) | by apply IH].
Qed.

(** C6.  For the answers of a run (their sections are among [SECTIONS]) and
    any sheet, the feedback block of the completion message is made of
    exactly these lines, in the fixed section order: one line, naming the
    section and giving the rationale, for each section that has an incorrect
    answer and whose first incorrect question is in the sheet with a present,
    non-empty rationale; nothing for a section without an incorrect answer
    or whose first incorrect question lacks a rationale.  The block is empty
    without lines, and otherwise the heading followed by the lines. *)
Theorem feedback_lines (i : Input) (s : Session) :
  (∀ a, a ∈ answers s → Answer.section a ∈ SECTIONS) →
  ∃ totalCorrect total pct lines,
    replies (score i s) =
      [TestComplete totalCorrect total pct (feedback_text lines)] ∧
    feedback_for (answers s) (questions i) SECTIONS lines ∧
    (∀ lines', feedback_for (answers s) (questions i) SECTIONS lines' →
       lines' = lines) ∧
    (∀ section r, section ∈ SECTIONS →
       has_feedback (answers s) (questions i) section r →
       ("â€¢ " ++ section ++ ": " ++ r)%string ∈ lines).
Proof.
  intros _.
  exists (fst (totals (bySection (answers s)))), (snd (totals (bySection (answers s)))),
    (percentage (fst (totals (bySection (answers s))))
       (snd (totals (bySection (answers s))))),
    (omap (feedback_line (answers s) (questions i)) SECTIONS).
  pose proof (feedback_for_omap (answers s) (questions i) SECTIONS) as Hfor.
  split; [|split; [done|split]].
  - rewrite replies_score, <- summary_text. unfold rationaleLines.
    by rewrite rationale_fold.
  - intros lines' H'. by apply (feedback_for_unique _ _ _ _ _ H').
  - intros section r. by apply feedback_for_elem.
Qed.

Lemma feedback_lines_witness :
  (∀ a, a ∈ answers demo_skipped → Answer.section a ∈ SECTIONS) ∧
  ∃ totalCorrect total pct lines,
    replies (score (demo_input "score") demo_skipped) =
      [TestComplete totalCorrect total pct (feedback_text lines)] ∧
    feedback_for (answers demo_skipped) (questions (demo_input "score")) SECTIONS lines.
Proof.
  assert (H : ∀ a, a ∈ answers demo_skipped → Answer.section a ∈ SECTIONS).
  { intros a Ha. apply list_elem_of_In in Ha. vm_compute in Ha.
    destruct Ha as [<- | [<- | []]].
    - apply (list_elem_of_lookup_2 _ 0). reflexivity.
    - apply (list_elem_of_lookup_2 _ 1). reflexivity. }
  split; [exact H|].
  destruct (feedback_lines (demo_input "score") demo_skipped H)
    as (tc & t & pct & lines & H1 & H2 & _).
  exists tc, t, pct, lines. split; [exact H1 | exact H2].
Defined.

Example feedback_lines_sample :
  replies (score (demo_input "score") demo_skipped) =
    [TestComplete 1 2 50
       (feedback_text ["â€¢ Assumptions: It is taken for granted."])].
Proof. vm_compute. reflexivity. Qed.

(* ===================================================================== *)
(** ** The invariant of the conversation                                  *)
(* ===================================================================== *)

Lemma SECTIONS_NoDup : NoDup SECTIONS.
Proof. apply (bool_decide_unpack (NoDup SECTIONS)). by vm_compute. Qed.

Lemma section_at_Some k x :
  section_at k = Some x → (0 ≤ k < Z.of_nat (length SECTIONS))%Z.
Proof.
  unfold section_at. destruct (k <? 0)%Z eqn:Hk; [done|].
  intros Hl. apply lookup_lt_Some in Hl. apply Z.ltb_ge in Hk. lia.
Qed.

Lemma section_at_inj j k x :
  section_at j = Some x → section_at k = Some x → j = k.
Proof.
  intros Hj Hk.
  pose proof (section_at_Some _ _ Hj). pose proof (section_at_Some _ _ Hk).
  unfold section_at in *.
  rewrite (proj2 (Z.ltb_ge j 0)) in Hj by lia.
  rewrite (proj2 (Z.ltb_ge k 0)) in Hk by lia.
  pose proof (NoDup_lookup _ _ _ _ SECTIONS_NoDup Hj Hk). lia.
Qed.

Lemma inv_fresh now : session_inv (freshSession now).
Proof.
  split; simpl; try done.
  - apply NoDup_nil_2.
  - intros a Ha. by apply not_elem_of_nil in Ha.
Qed.

Lemma inv_startTest i s : session_inv s → session_inv (fst (startTest i s)).
Proof.
  intros Hinv. unfold startTest. case_match; [|done].
  split; simpl; try done.
  - apply NoDup_nil_2.
  - intros a Ha. by apply not_elem_of_nil in Ha.
Qed.

(** A block that returns early has not touched the session. *)
Lemma recordAnswer_Return i s o :
  recordAnswer i s = Return o → session_after o = s ∧ persisted o = None.
Proof.
  unfold recordAnswer. repeat case_match; intros [= <-]; done.
Qed.

Lemma inv_recordAnswer i s s' t :
  session_inv s → recordAnswer i s = Continue s' t →
  session_inv s' ∧ state s' ≠ WAITING_ANSWER.
Proof.
  intros Hinv. unfold recordAnswer.
  case_bool_decide as Hst; [|intros [= <- <-]; done].
  destruct (inv_pending _ Hinv Hst) as (q & Hq & Hidx & Hsec).
  rewrite Hq. case_match; [done|]. intros [= <- <-]. split; [|done].
  assert (Hbound : answered_bound s = (sectionIndex s - 1)%Z)
    by (unfold answered_bound; by rewrite bool_decide_eq_true_2).
  split; simpl.
  - apply Hinv.
  - rewrite fmap_app. apply NoDup_app. split; [apply Hinv|]. split.
    + intros x Hx Hx'. apply list_elem_of_fmap in Hx as (a & -> & Ha).
      apply list_elem_of_singleton in Hx'. simpl in Hx'.
      destruct (inv_sections _ Hinv a Ha) as (k & Hk & Hka).
      rewrite Hx' in Hka. pose proof (section_at_inj _ _ _ Hka Hsec). lia.
    + apply NoDup_singleton.
  - intros a Ha. unfold answered_bound. simpl.
    apply elem_of_app in Ha as [Ha | Ha].
    + destruct (inv_sections _ Hinv a Ha) as (k & Hk & Hka).
      exists k. split; [lia | done].
    + apply list_elem_of_singleton in Ha as ->. simpl.
      exists (sectionIndex s - 1)%Z. split; [lia | done].
  - done.
Qed.

Lemma inv_askNext i s :
  session_inv s → state s ≠ WAITING_ANSWER →
  session_inv (session_after (askNext i s)).
Proof.
  intros Hinv Hst. unfold askNext.
  case_bool_decide as Hask; [|done].
  assert (Hbound : answered_bound s = sectionIndex s)
    by (unfold answered_bound; by rewrite bool_decide_eq_false_2).
  destruct (Z.of_nat (length SECTIONS) <=? sectionIndex s)%Z eqn:Hend.
  - (* scoring *)
    unfold score. destruct (totals _). simpl.
    split; simpl; try done; try apply Hinv.
    intros a Ha. destruct (inv_sections _ Hinv a Ha) as (k & Hk & Hka).
    exists k. unfold answered_bound. simpl. split; [lia | done].
  - apply Z.leb_gt in Hend. pose proof (inv_index _ Hinv) as Hidx.
    change (Z.of_nat (length SECTIONS)) with 5%Z in *.
    destruct (pickNextQuestion _ _ _ _) as [q|] eqn:Hpick; simpl.
    + (* a question is dispatched *)
      apply pickNextQuestion_Some, elem_of_pool in Hpick as (_ & Hsec & _).
      split; simpl.
      * lia.
      * apply Hinv.
      * intros a Ha. destruct (inv_sections _ Hinv a Ha) as (k & Hk & Hka).
        exists k. unfold answered_bound. simpl. split; [lia | done].
      * intros _. exists q. split; [done|]. split; [lia|].
        replace (sectionIndex s + 1 - 1)%Z with (sectionIndex s) by lia. done.
    + (* the section is skipped *)
      split; simpl.
      * lia.
      * apply Hinv.
      * intros a Ha. destruct (inv_sections _ Hinv a Ha) as (k & Hk & Hka).
        exists k. unfold answered_bound. simpl.
        rewrite bool_decide_eq_false_2 by done. split; [lia | done].
      * done.
Qed.

Lemma startTest_not_waiting i s :
  state (fst (startTest i s)) = WAITING_ANSWER → startTest i s = (s, []).
Proof. unfold startTest. by case_match. Qed.

Lemma inv_handler i s : session_inv s → session_inv (session_after (handler i s)).
Proof.
  intros Hinv. unfold handler.
  pose proof (inv_startTest i s Hinv) as Hinv1.
  destruct (startTest i s) as [s1 t1] eqn:Hstart. simpl in Hinv1.
  destruct (recordAnswer i s1) as [s2 t2 | o] eqn:Hrec; simpl.
  - destruct (inv_recordAnswer _ _ _ _ Hinv1 Hrec). by apply inv_askNext.
  - by apply recordAnswer_Return in Hrec as [-> _].
Qed.

Lemma reachable_inv s : reachable s → session_inv s.
Proof. induction 1; [apply inv_fresh | by apply inv_handler]. Qed.

(* ===================================================================== *)
(** ** How the handler ends                                               *)
(* ===================================================================== *)

Lemma recordAnswer_other i s :
  state s ≠ WAITING_ANSWER → recordAnswer i s = Continue s [].
Proof. intros H. unfold recordAnswer. by rewrite bool_decide_eq_false_2. Qed.

(** With the index at the end, a message in ASKING is the scoring step. *)
Lemma handler_scores i s :
  state s = ASKING → (Z.of_nat (length SECTIONS) ≤ sectionIndex s)%Z →
  handler i s = score i s.
Proof.
  intros Hst Hend. unfold handler. rewrite startTest_idle by (left; congruence).
  rewrite recordAnswer_other by congruence.
  unfold askNext. rewrite bool_decide_eq_true_2 by done.
  rewrite (proj2 (Z.leb_le _ _)) by done.
  unfold prepend. simpl. by destruct (score i s).
Qed.

Lemma completion_askNext i s : completion (askNext i s) = Responded.
Proof. unfold askNext, score. repeat case_match; done. Qed.

(** The handler answers the request whenever a session that waits for an
    answer has its question. *)
Lemma handler_Responded i s :
  (state s = WAITING_ANSWER → is_Some (currentQ s)) →
  completion (handler i s) = Responded.
Proof.
  intros Hq. unfold handler.
  destruct (startTest i s) as [s1 t1] eqn:Hstart.
  destruct (recordAnswer i s1) as [s2 t2 | o] eqn:Hrec; simpl;
    [apply completion_askNext|].
  revert Hrec. unfold recordAnswer. case_bool_decide as Hst; [|done].
  assert (s1 = s) as ->.
  { pose proof (startTest_not_waiting i s) as H.
    rewrite Hstart in H. by injection (H Hst). }
  destruct (Hq Hst) as [q ->]. case_match; intros [= <-]; done.
Qed.

(** It throws on a waiting session that has lost its question: the reply
    template reads [q.options] of [null]. *)
Lemma handler_Threw i s :
  state s = WAITING_ANSWER → currentQ s = None →
  handler i s = mkOutcome s [] Threw.
Proof.
  intros Hst Hq. unfold handler. rewrite startTest_idle by (left; congruence).
  unfold recordAnswer. by rewrite bool_decide_eq_true_2, Hq.
Qed.

Lemma saved_app t t' : saved (t ++ t') = saved t ++ saved t'.
Proof. apply omap_app. Qed.

Lemma saved_startTest i s : saved (snd (startTest i s)) = [].
Proof. unfold startTest. by case_match. Qed.

Lemma saved_recordAnswer i s s' t :
  recordAnswer i s = Continue s' t → saved t = [].
Proof. unfold recordAnswer. repeat case_match; intros [= <- <-]; done. Qed.

Lemma recordAnswer_Return_waiting i s o :
  recordAnswer i s = Return o → state s = WAITING_ANSWER ∧ saved (trace o) = [].
Proof.
  unfold recordAnswer. case_bool_decide; [|done].
  repeat case_match; intros [= <-]; done.
Qed.

Lemma saved_askNext i s :
  saved (trace (askNext i s)) = [session_after (askNext i s)].
Proof. unfold askNext, score. repeat case_match; done. Qed.

(** The session a request leaves in memory is the one it persisted (it
    persists at most once), and a request that persisted nothing has not
    changed it. *)
Lemma handler_saved i s :
  saved (trace (handler i s)) = [session_after (handler i s)] ∨
  saved (trace (handler i s)) = [] ∧ session_after (handler i s) = s.
Proof.
  unfold handler. pose proof (saved_startTest i s) as Ht1.
  pose proof (startTest_not_waiting i s) as Hs1.
  destruct (startTest i s) as [s1 t1]. simpl in Ht1, Hs1.
  destruct (recordAnswer i s1) as [s2 t2 | o] eqn:Hrec; simpl.
  - left. rewrite !saved_app, Ht1, (saved_recordAnswer _ _ _ _ Hrec).
    apply saved_askNext.
  - right. destruct (recordAnswer_Return_waiting _ _ _ Hrec) as [Hst Ho].
    destruct (recordAnswer_Return _ _ _ Hrec) as [Hafter _].
    rewrite saved_app, Ht1, Ho, Hafter. split; [done|].
    by injection (Hs1 Hst).
Qed.


(* ===================================================================== *)
(** ** Properties of every reachable session                              *)
(* ===================================================================== *)

Lemma NoDup_fmap_filter_le {A B} `{EqDecision B} (f : A → B) (l : list A) (b : B) :
  NoDup (f <$> l) → length (filter (λ a, f a = b) l) ≤ 1.
Proof.
  induction l as [|a l IH]; csimpl; [lia|].
  intros [Hnotin Hnd]%NoDup_cons. specialize (IH Hnd).
  destruct (decide (f a = b)) as [Hab | Hab].
  - rewrite filter_cons_True by done. simpl.
    destruct (filter (λ a0, f a0 = b) l) as [|c k] eqn:Hf; [simpl; lia|].
    exfalso. apply Hnotin.
    assert (c ∈ filter (λ a0, f a0 = b) l) as Hc by (rewrite Hf; left).
    apply list_elem_of_filter in Hc as [Hcb Hcl].
    rewrite Hab, <- Hcb. by apply list_elem_of_fmap_2.
  - by rewrite filter_cons_False.
Qed.

(** C4.  In a reachable session the answers have pairwise different sections:
    no (section, questionId) pair occurs twice, and a section has at most
    one answer. *)
Theorem answers_one_per_section (s : Session) :
  reachable s →
  NoDup ((λ a, (Answer.section a, Answer.qid a)) <$> answers s) ∧
  NoDup (Answer.section <$> answers s) ∧
  ∀ section, length (in_section section (answers s)) ≤ 1.
Proof.
  intros Hr. pose proof (inv_nodup _ (reachable_inv _ Hr)) as Hnd.
  split; [|split; [done|]].
  - apply (NoDup_fmap_1 fst). by rewrite <- list_fmap_compose.
  - intros section. by apply NoDup_fmap_filter_le.
Qed.

(** C8.  In a reachable session [0 ≤ sectionIndex ≤ len(SECTIONS)], and no
    message takes [sectionIndex] beyond the number of sections. *)
Theorem sectionIndex_bounds (s : Session) :
  reachable s →
  (0 ≤ sectionIndex s ≤ Z.of_nat (length SECTIONS))%Z ∧
  ∀ i, (0 ≤ sectionIndex (session_after (handler i s))
          ≤ Z.of_nat (length SECTIONS))%Z.
Proof.
  intros Hr. split; [apply (inv_index _ (reachable_inv _ Hr))|].
  intros i. apply (inv_index _ (reachable_inv _ (reach_step i s Hr))).
Qed.

(** C10.  A reachable session in WAITING_ANSWER has its [currentQ]; hence
    on a reachable session the handler never reads [options] of an absent
    question: it always completes with its response. *)
Theorem waiting_has_question (s : Session) :
  reachable s →
  (state s = WAITING_ANSWER → ∃ q, currentQ s = Some q) ∧
  ∀ i, completion (handler i s) = Responded.
Proof.
  intros Hr. pose proof (inv_pending _ (reachable_inv _ Hr)) as Hp.
  split.
  - intros Hst. destruct (Hp Hst) as (q & Hq & _). by exists q.
  - intros i. apply handler_Responded. intros Hst.
    destruct (Hp Hst) as (q & -> & _). done.
Qed.

(* ===================================================================== *)
(** ** Skipping a section                                                 *)
(* ===================================================================== *)

(** C9.  In ASKING, with [sectionIndex] at a section whose pool of
    unanswered questions is empty, the message advances [sectionIndex] by
    one and changes nothing else (the state stays ASKING), persists that
    session, sends the skip notice and returns: no question is dispatched
    in the same message. *)
Theorem skip_empty_section (i : Input) (s : Session) (section : string) :
  state s = ASKING →
  section_at (sectionIndex s) = Some section →
  pool (questions i) (Some section) (askedIds s (Some section)) = [] →
  session_after (handler i s) = next_section s ∧
  sectionIndex (session_after (handler i s)) = (sectionIndex s + 1)%Z ∧
  state (session_after (handler i s)) = ASKING ∧
  trace (handler i s) =
    [SetSession (from i) (next_section s); SendWA (from i) (Skipping (Some section))] ∧
  replies (handler i s) = [Skipping (Some section)] ∧
  completion (handler i s) = Responded.
Proof.
  intros Hst Hsec Hpool.
  assert (handler i s =
          mkOutcome (next_section s)
            [SetSession (from i) (next_section s);
             SendWA (from i) (Skipping (Some section))] Responded) as ->.
  { unfold handler. rewrite startTest_idle by (left; congruence).
    rewrite recordAnswer_other by congruence.
    unfold askNext. rewrite bool_decide_eq_true_2 by done.
    pose proof (section_at_Some _ _ Hsec).
    rewrite (proj2 (Z.leb_gt _ _)) by lia.
    rewrite Hsec, pickNextQuestion_empty by done. done. }
  simpl. by rewrite Hst.
Qed.

(* ===================================================================== *)
(** ** A run of the conversation                                          *)
(* ===================================================================== *)

Lemma demo_answered_reachable : reachable demo_answered.
Proof. apply reach_step, reach_step, reach_fresh. Defined.

Lemma demo_skipped_reachable : reachable demo_skipped.
Proof. apply reach_step, demo_answered_reachable. Defined.

Example demo_started_state :
  state demo_started = WAITING_ANSWER ∧ sectionIndex demo_started = 1%Z ∧
  currentQ demo_started = Some demo_inference ∧
  replies (handler (demo_input "start") (freshSession 0)) =
    [Started; Ask (Some "Inference") demo_inference].
Proof. vm_compute. done. Qed.

Example demo_skipped_state :
  state demo_skipped = ASKING ∧ sectionIndex demo_skipped = 3%Z ∧
  (Answer.section <$> answers demo_skipped) = ["Inference"; "Assumptions"] ∧
  (Answer.isCorrect <$> answers demo_skipped) = [true; false] ∧
  replies (handler (demo_input "1") demo_answered) = [Skipping (Some "Deduction")].
Proof. vm_compute. done. Qed.

Lemma answers_one_per_section_witness :
  reachable demo_skipped ∧
  NoDup ((λ a, (Answer.section a, Answer.qid a)) <$> answers demo_skipped) ∧
  length (in_section "Inference" (answers demo_skipped)) ≤ 1.
Proof.
  split; [exact demo_skipped_reachable|].
  destruct (answers_one_per_section demo_skipped demo_skipped_reachable)
    as (H1 & _ & H3).
  split; [exact H1 | exact (H3 "Inference")].
Defined.

Lemma sectionIndex_bounds_witness :
  reachable demo_skipped ∧
  (0 ≤ sectionIndex demo_skipped ≤ Z.of_nat (length SECTIONS))%Z.
Proof.
  split; [exact demo_skipped_reachable|].
  exact (proj1 (sectionIndex_bounds demo_skipped demo_skipped_reachable)).
Defined.

Lemma waiting_has_question_witness :
  reachable demo_answered ∧ state demo_answered = WAITING_ANSWER ∧
  (∃ q, currentQ demo_answered = Some q) ∧
  completion (handler (demo_input "nine") demo_answered) = Responded.
Proof.
  split; [exact demo_answered_reachable|]. split; [reflexivity|].
  destruct (waiting_has_question demo_answered demo_answered_reachable)
    as [H1 H2].
  split; [exact (H1 eq_refl) | exact (H2 (demo_input "nine"))].
Defined.

Lemma skip_empty_section_witness :
  state demo_skipped = ASKING ∧
  section_at (sectionIndex demo_skipped) = Some "Interpretation" ∧
  pool (questions (demo_input "next")) (Some "Interpretation")
    (askedIds demo_skipped (Some "Interpretation")) = [] ∧
  sectionIndex (session_after (handler (demo_input "next") demo_skipped)) = 4%Z ∧
  replies (handler (demo_input "next") demo_skipped) =
    [Skipping (Some "Interpretation")].
Proof.
  assert (H1 : state demo_skipped = ASKING) by reflexivity.
  assert (H2 : section_at (sectionIndex demo_skipped) = Some "Interpretation")
    by reflexivity.
  assert (H3 : pool (questions (demo_input "next")) (Some "Interpretation")
                 (askedIds demo_skipped (Some "Interpretation")) = [])
    by (vm_compute; reflexivity).
  split; [exact H1|]. split; [exact H2|]. split; [exact H3|].
  destruct (skip_empty_section (demo_input "next") demo_skipped "Interpretation"
              H1 H2 H3) as (_ & H4 & _ & _ & H5 & _).
  split; [exact H4 | exact H5].
Defined.

(* ===================================================================== *)
(** ** The sessions the in-memory store holds                            *)
(* ===================================================================== *)

Lemma store_reachable_empty : store_reachable ∅.
Proof. intros key rec H. by rewrite lookup_empty in H. Qed.

Lemma store_reachable_memGet now key memStore :
  store_reachable memStore →
  store_reachable (snd (Store.memGet now key memStore)) ∧
  ∀ s, fst (Store.memGet now key memStore) = Some s → reachable s.
Proof.
  intros Hok. unfold Store.memGet.
  destruct (memStore !! key) as [rec|] eqn:Hrec; [|done].
  case_match; simpl.
  - split; [|done]. intros k r Hk.
    apply lookup_delete_Some in Hk as [_ Hk]. by apply (Hok k).
  - split; [done|]. intros s [= <-]. by apply (Hok key).
Qed.

Lemma store_reachable_effects now t memStore :
  store_reachable memStore → (∀ s, s ∈ saved t → reachable s) →
  store_reachable (foldl (apply_effect now) memStore t).
Proof.
  revert memStore. induction t as [|e t IH]; intros memStore Hok Ht; [done|].
  simpl. apply IH.
  - destruct e as [| key s |]; simpl; try done.
    intros k r. unfold Store.memSet. rewrite lookup_insert.
    case_decide; [|apply Hok]. intros [= <-]. simpl.
    apply Ht. unfold saved. simpl. left.
  - intros s Hs. apply Ht. unfold saved in *.
    destruct e; simpl; try done. by right.
Qed.

(** Every session the store ever holds is a reachable one, expiry and
    eviction included. *)
Lemma serve_reachable i memStore :
  store_reachable memStore → store_reachable (snd (serve i memStore)).
Proof.
  intros Hok. unfold serve.
  destruct (store_reachable_memGet (now i) (from i) memStore Hok) as [Hok1 Hget].
  destruct (Store.memGet (now i) (from i) memStore) as [stored memStore1].
  simpl in *. apply store_reachable_effects; [done|].
  assert (reachable (default (freshSession (now i)) stored)) as Hs.
  { destruct stored as [s|]; simpl; [by apply Hget | apply reach_fresh]. }
  intros p Hp. unfold webhook in Hp.
  destruct (handler_saved i (default (freshSession (now i)) stored))
    as [Heq | [Heq _]]; rewrite Heq in Hp.
  - apply list_elem_of_singleton in Hp as ->. by apply reach_step.
  - by apply not_elem_of_nil in Hp.
Qed.

(* ===================================================================== *)
(** ** End-to-end scenarios                                               *)
(* ===================================================================== *)

Example percentage_values :
  percentage 5 5 = 100 ∧ percentage 4 5 = 80 ∧ percentage 1 3 = 33 ∧
  percentage 2 3 = 67 ∧ percentage 1 8 = 13 ∧ percentage 0 0 = 0.
Proof. vm_compute. done. Qed.

(** Scenario C: five sections, one question each, all answered correctly. *)
Example scenario_all_correct :
  let s := run full_sheet ["start"; "1"; "1"; "1"; "1"] (freshSession 0) in
  state s = WAITING_ANSWER ∧ sectionIndex s = 5%Z ∧
  replies (handler (full_input "1") s) = [TestComplete 5 5 100 EmptyString] ∧
  state (session_after (handler (full_input "1") s)) = IDLE.
Proof. vm_compute. done. Qed.

(** Scenario D: one wrong answer, on a question that has a rationale. *)
Example scenario_one_wrong :
  let s := run full_sheet ["start"; "1"; "2"; "1"; "1"] (freshSession 0) in
  replies (handler (full_input "1") s) =
    [TestComplete 4 5 80
       (summary [(bullet ++ "Assumptions: Rationale of Ass-1")%string])].
Proof. vm_compute. done. Qed.

(** A finished run starts over on the next start word, with no answer
    carried over. *)
Example scenario_restart :
  let s := run full_sheet ["start"; "1"; "2"; "1"; "1"; "1"] (freshSession 0) in
  state s = IDLE ∧ length (answers s) = 5 ∧
  answers (session_after (handler (full_input "TEST") s)) = [] ∧
  sectionIndex (session_after (handler (full_input "TEST") s)) = 1%Z.
Proof. vm_compute. done. Qed.

(* ===================================================================== *)
(** ** The start pattern, in full                                         *)
(* ===================================================================== *)

Lemma append_empty (v : string) : (EmptyString ++ v)%string = v.
Proof. reflexivity. Qed.

Lemma append_String c (u v : string) :
  (String c u ++ v)%string = String c (u ++ v)%string.
Proof. reflexivity. Qed.

Lemma ci_prefix_split pat s :
  Text.ci_prefix pat s = true ↔
  ∃ u v, s = (u ++ v)%string ∧ Text.ci_whole pat u = true.
Proof.
  revert s. induction pat as [|p pat IH]; intros s.
  - split; [|done]. intros _. exists EmptyString, s. by destruct s.
  - destruct s as [|c s]; simpl.
    + split; [done|]. intros (u & v & Hs & Hu). by destruct u.
    + rewrite andb_true_iff, IH. split.
      * intros (Hc & u & v & -> & Hu). exists (String c u), v.
        rewrite append_String. simpl. by rewrite Hc, Hu.
      * intros (u & v & Hs & Hu). destruct u as [|c' u]; [done|].
        rewrite append_String in Hs. simpl in Hu. injection Hs as <- ->.
        apply andb_true_iff in Hu as [? ?]. eauto.
Qed.

Lemma ci_suffix_split pat s :
  Text.ci_suffix pat s = true ↔
  ∃ u v, s = (u ++ v)%string ∧ Text.ci_whole pat v = true.
Proof.
  induction s as [|c s IH].
  - simpl. rewrite orb_false_r. split.
    + intros H. by exists EmptyString, EmptyString.
    + intros (u & v & Hs & Hv). destruct u; [|done].
      rewrite append_empty in Hs. by subst v.
  - cbn [Text.ci_suffix]. rewrite orb_true_iff, IH. split.
    + intros [H | (u & v & -> & Hv)].
      * by exists EmptyString, (String c s).
      * by exists (String c u), v.
    + intros (u & v & Hs & Hv). destruct u as [|c' u].
      * left. rewrite append_empty in Hs. by subst v.
      * right. rewrite append_String in Hs. injection Hs as <- ->. eauto.
Qed.

Ltac letter_cases c :=
  destruct c as [[] [] [] [] [] [] [] []]; vm_compute;
  (split; [intros H; try discriminate H; (by left) || (by right)
          | intros [H | H]; try discriminate H; reflexivity]).

Lemma ci_char_s c : Text.ci_char "s" c = true ↔ either_case "s" "S" c.
Proof. letter_cases c. Qed.

Lemma ci_char_t c : Text.ci_char "t" c = true ↔ either_case "t" "T" c.
Proof. letter_cases c. Qed.

Lemma ci_char_a c : Text.ci_char "a" c = true ↔ either_case "a" "A" c.
Proof. letter_cases c. Qed.

Lemma ci_char_r c : Text.ci_char "r" c = true ↔ either_case "r" "R" c.
Proof. letter_cases c. Qed.

Lemma ci_char_e c : Text.ci_char "e" c = true ↔ either_case "e" "E" c.
Proof. letter_cases c. Qed.

Lemma ci_whole_start u :
  Text.ci_whole "start" u = true ↔
  ∃ c1 c2 c3 c4 c5,
    u = String c1 (String c2 (String c3 (String c4 (String c5 EmptyString)))) ∧
    either_case "s" "S" c1 ∧ either_case "t" "T" c2 ∧ either_case "a" "A" c3 ∧
    either_case "r" "R" c4 ∧ either_case "t" "T" c5.
Proof.
  split.
  - destruct u as [|c1 [|c2 [|c3 [|c4 [|c5 [|c6 u]]]]]]; simpl;
      rewrite ?andb_true_iff, ?andb_false_r; try (intros H; by decompose [and] H).
    rewrite ci_char_s, !ci_char_t, ci_char_a, ci_char_r.
    intros (? & ? & ? & ? & ? & _). by exists c1, c2, c3, c4, c5.
  - intros (c1 & c2 & c3 & c4 & c5 & -> & H1 & H2 & H3 & H4 & H5). simpl.
    rewrite !andb_true_iff, ci_char_s, !ci_char_t, ci_char_a, ci_char_r. done.
Qed.

Lemma ci_whole_test u :
  Text.ci_whole "test" u = true ↔
  ∃ c1 c2 c3 c4,
    u = String c1 (String c2 (String c3 (String c4 EmptyString))) ∧
    either_case "t" "T" c1 ∧ either_case "e" "E" c2 ∧ either_case "s" "S" c3 ∧
    either_case "t" "T" c4.
Proof.
  split.
  - destruct u as [|c1 [|c2 [|c3 [|c4 [|c5 u]]]]]; simpl;
      rewrite ?andb_true_iff, ?andb_false_r; try (intros H; by decompose [and] H).
    rewrite !ci_char_t, ci_char_e, ci_char_s.
    intros (? & ? & ? & ? & _). by exists c1, c2, c3, c4.
  - intros (c1 & c2 & c3 & c4 & -> & H1 & H2 & H3 & H4). simpl.
    rewrite !andb_true_iff, !ci_char_t, ci_char_e, ci_char_s. done.
Qed.

(** X1.  The start guard holds exactly for the texts whose first five
    characters are s or S, t or T, a or A, r or R, t or T, and for the texts
    whose last four characters are t or T, e or E, s or S, t or T; no other
    character stands for one of these letters. *)
Theorem start_pattern_iff (body : string) :
  Text.start_pattern body = true ↔
  (∃ c1 c2 c3 c4 c5 rest,
     body = String c1 (String c2 (String c3 (String c4 (String c5 rest)))) ∧
     either_case "s" "S" c1 ∧ either_case "t" "T" c2 ∧ either_case "a" "A" c3 ∧
     either_case "r" "R" c4 ∧ either_case "t" "T" c5) ∨
  (∃ front c1 c2 c3 c4,
     body = (front ++ String c1 (String c2 (String c3 (String c4 EmptyString))))%string ∧
     either_case "t" "T" c1 ∧ either_case "e" "E" c2 ∧ either_case "s" "S" c3 ∧
     either_case "t" "T" c4).
Proof.
  unfold Text.start_pattern. rewrite orb_true_iff, ci_prefix_split, ci_suffix_split.
  split.
  - intros [(u & v & -> & Hu) | (u & v & -> & Hv)].
    + left. apply ci_whole_start in Hu as (c1 & c2 & c3 & c4 & c5 & -> & H).
      by exists c1, c2, c3, c4, c5, v.
    + right. apply ci_whole_test in Hv as (c1 & c2 & c3 & c4 & -> & H).
      by exists u, c1, c2, c3, c4.
  - intros [(c1 & c2 & c3 & c4 & c5 & rest & -> & H)
           | (front & c1 & c2 & c3 & c4 & -> & H)].
    + left.
      exists (String c1 (String c2 (String c3 (String c4 (String c5 EmptyString))))), rest.
      split; [done|]. apply ci_whole_start. by exists c1, c2, c3, c4, c5.
    + right. exists front, (String c1 (String c2 (String c3 (String c4 EmptyString)))).
      split; [done|]. apply ci_whole_test. by exists c1, c2, c3, c4.
Qed.

(* ===================================================================== *)
(** ** The handler, case by case                                          *)
(* ===================================================================== *)

Lemma prepend_nil o : prepend [] o = o.
Proof. by destruct o. Qed.

Lemma replies_prepend t o :
  replies (prepend t o) = replies (mkOutcome (session_after o) t Responded) ++ replies o.
Proof. unfold replies, prepend. simpl. apply omap_app. Qed.

Lemma attempts_prepend t o :
  attempts (trace (prepend t o)) = attempts t ++ attempts (trace o).
Proof. unfold attempts, prepend. simpl. apply omap_app. Qed.

Lemma saved_prepend t o :
  saved (trace (prepend t o)) = saved t ++ saved (trace o).
Proof. unfold prepend. simpl. apply saved_app. Qed.

Lemma handler_idle i s :
  state s = IDLE → Text.start_pattern (body i) = false →
  handler i s = mkOutcome s [SetSession (from i) s] Responded.
Proof.
  intros Hst Hb. unfold handler. rewrite startTest_idle by (by right).
  rewrite recordAnswer_other by congruence.
  unfold askNext. rewrite bool_decide_eq_false_2 by congruence. done.
Qed.

Lemma handler_start i s :
  state s = IDLE → Text.start_pattern (body i) = true →
  handler i s = prepend [SendWA (from i) Started] (askNext i (started s)).
Proof.
  intros Hst Hb. unfold handler, startTest.
  rewrite Hb, bool_decide_eq_true_2 by done. cbn [andb].
  fold (started s). rewrite recordAnswer_other by done. by rewrite app_nil_r.
Qed.

Lemma handler_asking i s : state s = ASKING → handler i s = askNext i s.
Proof.
  intros Hst. unfold handler. rewrite startTest_idle by (left; congruence).
  rewrite recordAnswer_other by congruence. apply prepend_nil.
Qed.

Lemma handler_valid i s q n :
  state s = WAITING_ANSWER → currentQ s = Some q →
  Text.parseInt (body i) = Some n → invalid_choice (Some n) q = false →
  handler i s =
  prepend [AppendAttempt (make_attempt i q n (now i - qStart s))]
    (askNext i (recorded i s q n)).
Proof.
  intros Hst Hq Hn Hv. unfold handler. rewrite startTest_idle by (left; congruence).
  unfold recordAnswer. rewrite bool_decide_eq_true_2, Hq, Hn, Hv by done. done.
Qed.

Lemma handler_invalid i s q :
  state s = WAITING_ANSWER → currentQ s = Some q →
  invalid_choice (Text.parseInt (body i)) q = true →
  handler i s =
  mkOutcome s [SendWA (from i) (PleaseReply (length (Question.options q)))] Responded.
Proof.
  intros Hst Hq Hv. unfold handler. rewrite startTest_idle by (left; congruence).
  unfold recordAnswer. rewrite bool_decide_eq_true_2, Hq, Hv by done. done.
Qed.

(** Every session meets one of the five cases above. *)
Lemma handler_cases i s :
  (state s = IDLE ∧ Text.start_pattern (body i) = false) ∨
  (state s = IDLE ∧ Text.start_pattern (body i) = true) ∨
  state s = ASKING ∨
  (state s = WAITING_ANSWER ∧ currentQ s = None) ∨
  (∃ q, state s = WAITING_ANSWER ∧ currentQ s = Some q ∧
        (invalid_choice (Text.parseInt (body i)) q = true ∨
         ∃ n, Text.parseInt (body i) = Some n ∧ invalid_choice (Some n) q = false)).
Proof.
  destruct (state s) eqn:Hst.
  - destruct (Text.start_pattern (body i)); [right; left | left]; done.
  - right; right; left; done.
  - destruct (currentQ s) as [q|] eqn:Hq; [|do 3 right; left; done].
    do 4 right. exists q. split; [done|]. split; [done|].
    destruct (invalid_choice (Text.parseInt (body i)) q) eqn:Hv; [by left|].
    right. destruct (Text.parseInt (body i)) as [n|]; [by exists n | done].
Qed.

Lemma valid_choice_range n q :
  invalid_choice (Some n) q = false ↔
  (1 ≤ n ≤ Z.of_nat (length (Question.options q)))%Z.
Proof. unfold invalid_choice. rewrite orb_false_iff, !Z.ltb_ge. lia. Qed.

(** The ask block, case by case. *)
Lemma askNext_score i s :
  state s = ASKING → (Z.of_nat (length SECTIONS) ≤ sectionIndex s)%Z →
  askNext i s = score i s.
Proof.
  intros Hst Hend. unfold askNext. rewrite bool_decide_eq_true_2 by done.
  by rewrite (proj2 (Z.leb_le _ _)).
Qed.

Lemma askNext_pick i s :
  state s = ASKING → (sectionIndex s < Z.of_nat (length SECTIONS))%Z →
  askNext i s =
  match pickNextQuestion (random i) (questions i) (section_at (sectionIndex s))
          (askedIds s (section_at (sectionIndex s))) with
  | None =>
      mkOutcome (next_section s)
        [SetSession (from i) (next_section s);
         SendWA (from i) (Skipping (section_at (sectionIndex s)))] Responded
  | Some q =>
      let s' := {| state := WAITING_ANSWER; sectionIndex := sectionIndex s + 1;
                   asked := asked s; answers := answers s;
                   qStart := now i; currentQ := Some q |} in
      mkOutcome s'
        [SendWA (from i) (Ask (section_at (sectionIndex s)) q);
         SetSession (from i) s'] Responded
  end.
Proof.
  intros Hst Hlt. unfold askNext. rewrite bool_decide_eq_true_2 by done.
  by rewrite (proj2 (Z.leb_gt _ _)).
Qed.

Lemma askNext_other i s :
  state s ≠ ASKING → askNext i s = mkOutcome s [SetSession (from i) s] Responded.
Proof. intros H. unfold askNext. by rewrite bool_decide_eq_false_2. Qed.

Lemma answers_askNext i s : answers (session_after (askNext i s)) = answers s.
Proof. unfold askNext, score. repeat case_match; done. Qed.

Lemma attempts_askNext i s : attempts (trace (askNext i s)) = [].
Proof. unfold askNext, score. repeat case_match; done. Qed.

Lemma length_replies_askNext i s :
  length (replies (askNext i s)) = if bool_decide (state s = ASKING) then 1 else 0.
Proof. unfold askNext, score. repeat case_match; done. Qed.

(** X2.  In IDLE a text that does not match the start pattern is not
    answered: the session is written back as it was and nothing is sent. *)
Theorem idle_message_ignored (i : Input) (s : Session) :
  state s = IDLE → Text.start_pattern (body i) = false →
  session_after (handler i s) = s ∧
  replies (handler i s) = [] ∧
  attempts (trace (handler i s)) = [] ∧
  trace (handler i s) = [SetSession (from i) s] ∧
  completion (handler i s) = Responded.
Proof. intros Hst Hb. by rewrite handler_idle. Qed.

(** X3.  The number of messages a request sends: none when the handler
    throws; otherwise two for a start in IDLE (the acknowledgment and what
    the ask block sends), none for any other text in IDLE, and exactly one
    in ASKING and in WAITING_ANSWER. *)
Theorem reply_count (i : Input) (s : Session) :
  length (replies (handler i s)) =
  match completion (handler i s) with
  | Threw => 0
  | Responded =>
      match state s with
      | IDLE => if Text.start_pattern (body i) then 2 else 0
      | _ => 1
      end
  end.
Proof.
  destruct (handler_cases i s)
    as [[Hst Hb] | [[Hst Hb] | [Hst | [[Hst Hq] | (q & Hst & Hq & [Hv | (n & Hn & Hv)])]]]].
  - by rewrite handler_idle, Hst, Hb.
  - rewrite handler_start, Hst, Hb by done.
    rewrite replies_prepend, length_app, length_replies_askNext.
    unfold prepend. simpl. by rewrite completion_askNext.
  - rewrite handler_asking, Hst, completion_askNext, length_replies_askNext by done.
    by rewrite bool_decide_eq_true_2.
  - by rewrite handler_Threw.
  - by rewrite (handler_invalid _ _ q), Hst.
  - rewrite (handler_valid _ _ q n), Hst by done.
    rewrite replies_prepend, length_app, length_replies_askNext.
    unfold prepend. simpl. by rewrite completion_askNext.
Qed.

Ltac in_trace H :=
  repeat (apply elem_of_cons in H as [H | H]; [try discriminate H|]);
  try (by apply elem_of_nil in H).

Lemma SetSession_askNext i s key p :
  SetSession key p ∈ trace (askNext i s) →
  key = from i ∧ p = session_after (askNext i s).
Proof.
  unfold askNext, score. repeat case_match; simpl; intros Hin; in_trace Hin;
    by injection Hin as -> ->.
Qed.

Lemma SetSession_prepend key p t o :
  saved t = [] → SetSession key p ∈ trace (prepend t o) →
  SetSession key p ∈ trace o.
Proof.
  intros Ht. unfold prepend. simpl. rewrite elem_of_app. intros [H | H]; [|done].
  assert (p ∈ saved t) as Hp; [|rewrite Ht in Hp; by apply elem_of_nil in Hp].
  apply list_elem_of_omap. by exists (SetSession key p).
Qed.

(** X4.  A request writes the session at most once, under the sender's key,
    and what it writes is the session it ends with; it writes nothing only
    in WAITING_ANSWER (a rejected reply, or the absent question), and then
    the session is as it was loaded. *)
Theorem persist_once (i : Input) (s : Session) :
  (∀ key p, SetSession key p ∈ trace (handler i s) →
     key = from i ∧ p = session_after (handler i s)) ∧
  length (saved (trace (handler i s))) ≤ 1 ∧
  (saved (trace (handler i s)) = [] →
     state s = WAITING_ANSWER ∧ session_after (handler i s) = s).
Proof.
  destruct (handler_cases i s)
    as [[Hst Hb] | [[Hst Hb] | [Hst | [[Hst Hq] | (q & Hst & Hq & [Hv | (n & Hn & Hv)])]]]].
  - rewrite handler_idle by done. simpl. split; [|split; [lia | done]].
    intros key p H. in_trace H. by injection H as -> ->.
  - rewrite handler_start by done. split; [|split].
    + intros key p H. apply SetSession_prepend in H; [|done].
      by apply SetSession_askNext.
    + rewrite saved_prepend, saved_askNext. simpl. lia.
    + by rewrite saved_prepend, saved_askNext.
  - rewrite handler_asking by done. split; [|split].
    + apply SetSession_askNext.
    + rewrite saved_askNext. simpl. lia.
    + by rewrite saved_askNext.
  - rewrite handler_Threw by done. simpl. split; [|split; [lia | done]].
    intros key p H. by apply elem_of_nil in H.
  - rewrite (handler_invalid _ _ q) by done. simpl. split; [|split; [lia | done]].
    intros key p H. in_trace H.
  - rewrite (handler_valid _ _ q n) by done. split; [|split].
    + intros key p H. apply SetSession_prepend in H; [|done].
      by apply SetSession_askNext.
    + rewrite saved_prepend, saved_askNext. simpl. lia.
    + by rewrite saved_prepend, saved_askNext.
Qed.

(** X5.  A reply in WAITING_ANSWER that parses to a number of the option
    range is recorded: one answer is appended, carrying the pending
    question's id, section and correct index, the number chosen, and
    [isCorrect] set exactly when the number is the correct index; the same
    data is logged as the one attempt of the request, and the ask block
    then runs in the same request. *)
Theorem valid_answer_recorded (i : Input) (s : Session) (q : Question.t) (n : Z) :
  state s = WAITING_ANSWER → currentQ s = Some q →
  Text.parseInt (body i) = Some n →
  (1 ≤ n ≤ Z.of_nat (length (Question.options q)))%Z →
  let a := {| Answer.qid := Question.id q; Answer.section := Question.section q;
              Answer.selected := n; Answer.correct := Question.correct q;
              Answer.isCorrect := bool_decide (n = Question.correct q);
              Answer.latency := (now i - qStart s)%Z |} in
  answers (session_after (handler i s)) = answers s ++ [a] ∧
  answer_fields a :: [] = attempt_fields <$> attempts (trace (handler i s)) ∧
  handler i s =
    prepend [AppendAttempt (make_attempt i q n (now i - qStart s))]
      (askNext i (recorded i s q n)).
Proof.
  intros Hst Hq Hn Hv a. apply valid_choice_range in Hv.
  rewrite (handler_valid _ _ q n) by done.
  split; [|split; [|done]].
  - unfold prepend. simpl. by rewrite answers_askNext.
  - by rewrite attempts_prepend, attempts_askNext.
Qed.

(** X6.  Whatever the request, the answers of the session change in one of
    two ways only: a start in IDLE empties them, or at most one answer is
    appended; and the attempts logged by the request are exactly the
    answers appended, field by field. *)
Theorem answers_append_only (i : Input) (s : Session) :
  ∃ new : list Answer.t,
    length new ≤ 1 ∧
    answer_fields <$> new = attempt_fields <$> attempts (trace (handler i s)) ∧
    (answers (session_after (handler i s)) = answers s ++ new ∨
     (new = [] ∧ state s = IDLE ∧ Text.start_pattern (body i) = true ∧
      answers (session_after (handler i s)) = [])).
Proof.
  destruct (handler_cases i s)
    as [[Hst Hb] | [[Hst Hb] | [Hst | [[Hst Hq] | (q & Hst & Hq & [Hv | (n & Hn & Hv)])]]]].
  - exists []. rewrite handler_idle by done. simpl.
    split; [lia|]. split; [done|]. left. by rewrite app_nil_r.
  - exists []. rewrite handler_start by done.
    rewrite attempts_prepend, attempts_askNext. unfold prepend. simpl.
    rewrite answers_askNext. split; [lia|]. split; [done|]. by right.
  - exists []. rewrite handler_asking, attempts_askNext, answers_askNext by done.
    simpl. split; [lia|]. split; [done|]. left. by rewrite app_nil_r.
  - exists []. rewrite handler_Threw by done. simpl.
    split; [lia|]. split; [done|]. left. by rewrite app_nil_r.
  - exists []. rewrite (handler_invalid _ _ q) by done. simpl.
    split; [lia|]. split; [done|]. left. by rewrite app_nil_r.
  - exists [make_answer q n (now i - qStart s)].
    rewrite (handler_valid _ _ q n) by done.
    rewrite attempts_prepend, attempts_askNext. unfold prepend. simpl.
    rewrite answers_askNext. split; [lia|]. split; [done|]. by left.
Qed.

(** What the ask block leaves behind when it does not score. *)
Lemma askNext_advances i s :
  state s = ASKING → (sectionIndex s < Z.of_nat (length SECTIONS))%Z →
  sectionIndex (session_after (askNext i s)) = (sectionIndex s + 1)%Z ∧
  ((∃ q, q ∈ pool (questions i) (section_at (sectionIndex s))
               (askedIds s (section_at (sectionIndex s))) ∧
         state (session_after (askNext i s)) = WAITING_ANSWER ∧
         currentQ (session_after (askNext i s)) = Some q ∧
         qStart (session_after (askNext i s)) = now i ∧
         replies (askNext i s) = [Ask (section_at (sectionIndex s)) q]) ∨
   (state (session_after (askNext i s)) = ASKING ∧
    currentQ (session_after (askNext i s)) = currentQ s ∧
    replies (askNext i s) = [Skipping (section_at (sectionIndex s))])).
Proof.
  intros Hst Hlt. rewrite askNext_pick by done.
  destruct (pickNextQuestion _ _ _ _) as [q|] eqn:Hpick; simpl.
  - split; [done|]. left. exists q. split; [|done].
    by apply pickNextQuestion_Some in Hpick.
  - split; [done|]. right. by rewrite Hst.
Qed.

(** X7.  A start in IDLE is answered in the same request by the
    acknowledgment and by the ask block for the first section: the session
    ends with [sectionIndex] 1 and no answers, either waiting for the answer
    to an Inference question of the sheet, or in ASKING after the notice
    that Inference was skipped. *)
Theorem start_asks_first_section (i : Input) (s : Session) :
  state s = IDLE → Text.start_pattern (body i) = true →
  sectionIndex (session_after (handler i s)) = 1%Z ∧
  answers (session_after (handler i s)) = [] ∧
  ((∃ q, q ∈ questions i ∧ Question.section q = "Inference" ∧
         state (session_after (handler i s)) = WAITING_ANSWER ∧
         currentQ (session_after (handler i s)) = Some q ∧
         replies (handler i s) = [Started; Ask (Some "Inference") q]) ∨
   (state (session_after (handler i s)) = ASKING ∧
    replies (handler i s) = [Started; Skipping (Some "Inference")])).
Proof.
  intros Hst Hb. rewrite handler_start by done.
  rewrite replies_prepend. unfold prepend at 1 2 3 4 5. cbn [session_after].
  rewrite answers_askNext.
  destruct (askNext_advances i (started s)) as [Hidx Hcases]; [done | simpl; lia |].
  split; [done|]. split; [done|].
  destruct Hcases as [(q & Hq & Hw & Hc & _ & Hr) | (Ha & _ & Hr)].
  - left. exists q. apply elem_of_pool in Hq as (Hin & [= Hsec] & _).
    rewrite Hr. done.
  - right. by rewrite Hr.
Qed.

(** X8.  In ASKING, before the last section is passed, every request moves
    [sectionIndex] on by exactly one and leaves the answers alone: it either
    sends a question of the current section and waits, or skips the
    section. *)
Theorem asking_advances (i : Input) (s : Session) :
  state s = ASKING → (sectionIndex s < Z.of_nat (length SECTIONS))%Z →
  sectionIndex (session_after (handler i s)) = (sectionIndex s + 1)%Z ∧
  answers (session_after (handler i s)) = answers s ∧
  ((∃ q, q ∈ questions i ∧
         Some (Question.section q) = section_at (sectionIndex s) ∧
         state (session_after (handler i s)) = WAITING_ANSWER ∧
         currentQ (session_after (handler i s)) = Some q ∧
         replies (handler i s) = [Ask (section_at (sectionIndex s)) q]) ∨
   (state (session_after (handler i s)) = ASKING ∧
    replies (handler i s) = [Skipping (section_at (sectionIndex s))])).
Proof.
  intros Hst Hlt. rewrite handler_asking by done. rewrite answers_askNext.
  destruct (askNext_advances i s Hst Hlt) as [Hidx Hcases].
  split; [done|]. split; [done|].
  destruct Hcases as [(q & Hq & Hw & Hc & _ & Hr) | (Ha & _ & Hr)].
  - left. exists q. apply elem_of_pool in Hq as (Hin & Hsec & _). done.
  - by right.
Qed.

(** X9.  The answer to the last question is scored in the request that
    records it: with [sectionIndex] at the end, a valid reply is appended,
    the completion message reports the totals of the answers including it,
    and the session goes back to IDLE keeping its answers. *)
Theorem last_answer_scores (i : Input) (s : Session) (q : Question.t) (n : Z) :
  state s = WAITING_ANSWER → currentQ s = Some q →
  Text.parseInt (body i) = Some n →
  (1 ≤ n ≤ Z.of_nat (length (Question.options q)))%Z →
  (Z.of_nat (length SECTIONS) ≤ sectionIndex s)%Z →
  let all := answers s ++ [make_answer q n (now i - qStart s)] in
  state (session_after (handler i s)) = IDLE ∧
  answers (session_after (handler i s)) = all ∧
  sectionIndex (session_after (handler i s)) = sectionIndex s ∧
  replies (handler i s) =
    [TestComplete (fst (totals (bySection all))) (snd (totals (bySection all)))
       (percentage (fst (totals (bySection all))) (snd (totals (bySection all))))
       (summary (rationaleLines (bySection all) (questions i)))].
Proof.
  intros Hst Hq Hn Hv Hend all. apply valid_choice_range in Hv.
  rewrite (handler_valid _ _ q n) by done.
  rewrite replies_prepend, askNext_score by done.
  rewrite replies_score. unfold prepend, score. simpl.
  by destruct (totals _).
Qed.

Lemma Ask_askNext i s sec q :
  Ask sec q ∈ replies (askNext i s) →
  q ∈ questions i ∧ Some (Question.section q) = sec ∧
  sec = section_at (sectionIndex s) ∧
  state (session_after (askNext i s)) = WAITING_ANSWER ∧
  currentQ (session_after (askNext i s)) = Some q ∧
  qStart (session_after (askNext i s)) = now i ∧
  sectionIndex (session_after (askNext i s)) = (sectionIndex s + 1)%Z.
Proof.
  unfold askNext. case_bool_decide as Hst; [|intros Hin; by apply elem_of_nil in Hin].
  case_match.
  - rewrite replies_score. intros Hin. in_trace Hin.
  - destruct (pickNextQuestion _ _ _ _) as [q'|] eqn:Hpick; simpl;
      intros Hin; in_trace Hin.
    injection Hin as -> ->.
    apply pickNextQuestion_Some, elem_of_pool in Hpick as (? & ? & _). done.
Qed.

(** X10.  A question that is sent is always a question of the sheet read
    for this request and of the section announced with it, and the request
    ends waiting for its answer: it is the pending question, stamped with
    the time of the request, and the index has moved past its section. *)
Theorem asked_question_is_pending (i : Input) (s : Session)
    (sec : option string) (q : Question.t) :
  Ask sec q ∈ replies (handler i s) →
  q ∈ questions i ∧ Some (Question.section q) = sec ∧
  state (session_after (handler i s)) = WAITING_ANSWER ∧
  currentQ (session_after (handler i s)) = Some q ∧
  qStart (session_after (handler i s)) = now i ∧
  sec = section_at (sectionIndex (session_after (handler i s)) - 1).
Proof.
  assert (∀ s0, Ask sec q ∈ replies (askNext i s0) →
    q ∈ questions i ∧ Some (Question.section q) = sec ∧
    state (session_after (askNext i s0)) = WAITING_ANSWER ∧
    currentQ (session_after (askNext i s0)) = Some q ∧
    qStart (session_after (askNext i s0)) = now i ∧
    sec = section_at (sectionIndex (session_after (askNext i s0)) - 1)) as Hask.
  { intros s0 Hin. apply Ask_askNext in Hin as (? & ? & ? & ? & ? & ? & ->).
    replace (sectionIndex s0 + 1 - 1)%Z with (sectionIndex s0) by lia. done. }
  destruct (handler_cases i s)
    as [[Hst Hb] | [[Hst Hb] | [Hst | [[Hst Hq] | (q' & Hst & Hq & [Hv | (n & Hn & Hv)])]]]].
  - rewrite handler_idle by done. intros Hin. by apply elem_of_nil in Hin.
  - rewrite handler_start by done. rewrite replies_prepend. unfold replies at 1.
    simpl. intros Hin. in_trace Hin. unfold prepend. simpl. by apply Hask.
  - rewrite handler_asking by done. apply Hask.
  - rewrite handler_Threw by done. intros Hin. by apply elem_of_nil in Hin.
  - rewrite (handler_invalid _ _ q') by done. intros Hin. in_trace Hin.
  - rewrite (handler_valid _ _ q' n) by done. rewrite replies_prepend.
    unfold replies at 1. simpl. intros Hin. unfold prepend. simpl. by apply Hask.
Qed.

(* ===================================================================== *)
(** ** More on reachable sessions                                         *)
(* ===================================================================== *)

Lemma inv_answers_bound s :
  session_inv s → (Z.of_nat (length (answers s)) ≤ answered_bound s)%Z.
Proof.
  intros Hinv.
  assert (0 ≤ answered_bound s)%Z as Hb.
  { unfold answered_bound. pose proof (inv_index _ Hinv).
    case_bool_decide as Hst; [|lia].
    destruct (inv_pending _ Hinv Hst) as (? & ? & ? & ?). lia. }
  assert ((Answer.section <$> answers s) ⊆+ take (Z.to_nat (answered_bound s)) SECTIONS)
    as Hsub.
  { apply NoDup_submseteq; [apply Hinv|].
    intros x Hx. apply list_elem_of_fmap in Hx as (a & -> & Ha).
    destruct (inv_sections _ Hinv a Ha) as (k & Hk & Hka).
    apply elem_of_take. exists (Z.to_nat k). split; [|lia].
    unfold section_at in Hka. by rewrite (proj2 (Z.ltb_ge k 0)) in Hka by lia. }
  apply submseteq_length in Hsub. rewrite length_fmap, length_take in Hsub. lia.
Qed.

(** X11.  A reachable session never has more answers than sections
    dispatched: [len(answers) ≤ sectionIndex ≤ 5], and one fewer at least
    while a question is pending. *)
Theorem answers_count (s : Session) :
  reachable s →
  (Z.of_nat (length (answers s)) ≤ sectionIndex s ≤ 5)%Z ∧
  (state s = WAITING_ANSWER → (Z.of_nat (length (answers s)) < sectionIndex s)%Z).
Proof.
  intros Hr. pose proof (reachable_inv _ Hr) as Hinv.
  pose proof (inv_answers_bound _ Hinv) as Hb. pose proof (inv_index _ Hinv) as Hi.
  change (Z.of_nat (length SECTIONS)) with 5%Z in Hi.
  unfold answered_bound in Hb. case_bool_decide as Hst.
  - split; [lia|]. intros _. lia.
  - split; [lia|]. done.
Qed.

(** The second invariant: a question is kept only while waiting. *)
Lemma no_question_askNext i s :
  currentQ s = None →
  state (session_after (askNext i s)) ≠ WAITING_ANSWER →
  currentQ (session_after (askNext i s)) = None.
Proof. unfold askNext, score. repeat case_match; simpl; done. Qed.

Lemma no_question_handler i s :
  (state s ≠ WAITING_ANSWER → currentQ s = None) →
  state (session_after (handler i s)) ≠ WAITING_ANSWER →
  currentQ (session_after (handler i s)) = None.
Proof.
  intros Hs.
  destruct (handler_cases i s)
    as [[Hst Hb] | [[Hst Hb] | [Hst | [[Hst Hq] | (q & Hst & Hq & [Hv | (n & Hn & Hv)])]]]].
  - rewrite handler_idle by done. simpl. intros _. apply Hs. congruence.
  - rewrite handler_start by done. unfold prepend. simpl.
    apply no_question_askNext. simpl. apply Hs. congruence.
  - rewrite handler_asking by done. apply no_question_askNext, Hs. congruence.
  - rewrite handler_Threw by done. done.
  - rewrite (handler_invalid _ _ q) by done. done.
  - rewrite (handler_valid _ _ q n) by done. unfold prepend. simpl.
    by apply no_question_askNext.
Qed.

(** X12.  In a reachable session the pending question is there exactly
    while the session waits for an answer; it then belongs to the section
    just before [sectionIndex], and that section has no answer yet. *)
Theorem pending_question (s : Session) :
  reachable s →
  (state s = WAITING_ANSWER ↔ is_Some (currentQ s)) ∧
  ∀ q, currentQ s = Some q →
    section_at (sectionIndex s - 1) = Some (Question.section q) ∧
    in_section (Question.section q) (answers s) = [].
Proof.
  intros Hr.
  assert (state s ≠ WAITING_ANSWER → currentQ s = None) as Hnone.
  { induction Hr as [now | i s Hr IH]; [done|]. by apply no_question_handler. }
  pose proof (reachable_inv _ Hr) as Hinv.
  assert (is_Some (currentQ s) → state s = WAITING_ANSWER) as Hback.
  { intros [q Hq]. destruct (decide (state s = WAITING_ANSWER)) as [|Hne]; [done|].
    rewrite (Hnone Hne) in Hq. done. }
  split.
  - split; [|done]. intros Hst. destruct (inv_pending _ Hinv Hst) as (q & -> & _). done.
  - intros q Hq. assert (state s = WAITING_ANSWER) as Hst by (apply Hback; by rewrite Hq).
    destruct (inv_pending _ Hinv Hst) as (q' & Hq' & Hidx & Hsec).
    rewrite Hq in Hq'. injection Hq' as <-. split; [done|].
    destruct (in_section (Question.section q) (answers s)) as [|a k] eqn:Hf; [done|].
    exfalso. assert (a ∈ in_section (Question.section q) (answers s)) as Ha
      by (rewrite Hf; left).
    apply list_elem_of_filter in Ha as [Has Ha].
    destruct (inv_sections _ Hinv a Ha) as (j & Hj & Hja).
    rewrite Has in Hja. pose proof (section_at_inj _ _ _ Hja Hsec).
    unfold answered_bound in Hj. rewrite bool_decide_eq_true_2 in Hj by done. lia.
Qed.

(* ===================================================================== *)
(** ** What the totals count                                              *)
(* ===================================================================== *)

Lemma filter_all {A} (P : A → Prop) `{∀ x, Decision (P x)} (l : list A) :
  (∀ x, x ∈ l → P x) → filter P l = l.
Proof.
  induction l as [|x l IH]; intros Hall; [done|].
  rewrite filter_cons_True by (apply Hall; left).
  f_equal. apply IH. intros y Hy. apply Hall. by right.
Qed.

Lemma filter_none {A} (P : A → Prop) `{∀ x, Decision (P x)} (l : list A) :
  (∀ x, x ∈ l → ¬ P x) → filter P l = [].
Proof.
  induction l as [|x l IH]; intros Hall; [done|].
  rewrite filter_cons_False by (apply Hall; left).
  apply IH. intros y Hy. apply Hall. by right.
Qed.

Lemma length_filter_or {A} (P Q : A → Prop) `{∀ x, Decision (P x)}
    `{∀ x, Decision (Q x)} (l : list A) :
  (∀ x, P x → Q x → False) →
  length (filter (λ x, P x ∨ Q x) l) = length (filter P l) + length (filter Q l).
Proof.
  intros Hdisj. induction l as [|x l IH]; [done|].
  destruct (decide (P x)) as [HP | HP]; destruct (decide (Q x)) as [HQ | HQ].
  - by destruct (Hdisj x).
  - rewrite (filter_cons_True (λ x, P x ∨ Q x)), (filter_cons_True P),
      (filter_cons_False Q) by tauto. simpl. lia.
  - rewrite (filter_cons_True (λ x, P x ∨ Q x)), (filter_cons_False P),
      (filter_cons_True Q) by tauto. simpl. lia.
  - rewrite (filter_cons_False (λ x, P x ∨ Q x)), (filter_cons_False P),
      (filter_cons_False Q) by tauto. done.
Qed.

(** Counting section by section over a duplicate-free list of sections is
    counting the answers whose section is in the list. *)
Lemma sum_section_total (l : list Answer.t) (sections : list string) :
  NoDup sections →
  sum_list (section_total l <$> sections) =
  length (filter (λ a, Answer.section a ∈ sections) l).
Proof.
  induction sections as [|s sections IH]; intros Hnd; csimpl.
  - rewrite filter_none; [done|]. intros a _ Ha. by apply elem_of_nil in Ha.
  - apply NoDup_cons in Hnd as [Hs Hnd]. rewrite IH by done.
    unfold section_total, in_section. simpl.
    rewrite <- (length_filter_or (λ a, Answer.section a = s)
                  (λ a, Answer.section a ∈ sections)).
    + f_equal. apply list_filter_iff. intros a. by rewrite elem_of_cons.
    + intros a -> Ha. done.
Qed.

Lemma section_correct_total l s :
  section_correct l s =
  section_total (filter (λ a, Answer.isCorrect a = true) l) s.
Proof.
  unfold section_correct, section_total, in_section. simpl.
  rewrite !list_filter_filter. f_equal. apply list_filter_iff. tauto.
Qed.

Lemma totals_filtered (l : list Answer.t) :
  totals (bySection l) =
  (length (filter (λ a, Answer.section a ∈ SECTIONS)
             (filter (λ a, Answer.isCorrect a = true) l)),
   length (filter (λ a, Answer.section a ∈ SECTIONS) l)).
Proof.
  rewrite totals_sums. f_equal.
  - rewrite <- (sum_section_total _ _ SECTIONS_NoDup). f_equal.
    apply list_fmap_ext. intros _ s _. apply section_correct_total.
  - apply sum_section_total, SECTIONS_NoDup.
Qed.

(** X13.  When no answer is filed under a property name that objects
    inherit, the totals of the completion message count the answers whose
    section is one of the five of [SECTIONS], and only those: [total] is
    their number and [totalCorrect] the number of correct ones among them;
    an answer filed under another section name is left out of both. *)
Theorem totals_count (i : Input) (s : Session) :
  (∀ a, a ∈ answers s → Answer.section a ∉ inherited_keys) →
  ∃ pct feedback,
    replies (score i s) =
    [TestComplete
       (length (filter (λ a, Answer.section a ∈ SECTIONS)
                  (filter (λ a, Answer.isCorrect a = true) (answers s))))
       (length (filter (λ a, Answer.section a ∈ SECTIONS) (answers s)))
       pct feedback].
Proof. intros _. eexists _, _. by rewrite replies_score, totals_filtered. Qed.

Lemma inv_sections_known s a :
  session_inv s → a ∈ answers s → Answer.section a ∈ SECTIONS.
Proof.
  intros Hinv Ha. destruct (inv_sections _ Hinv a Ha) as (k & Hk & Hka).
  unfold section_at in Hka. case_match; [done|].
  by apply list_elem_of_lookup_2 in Hka.
Qed.

(** X14.  On a reachable session every answer counts: the totals the
    scoring step computes are [total = len(answers)], at most 5, and
    [totalCorrect] the number of answers marked correct. *)
Theorem score_counts_every_answer (s : Session) :
  reachable s →
  totals (bySection (answers s)) =
    (length (filter (λ a, Answer.isCorrect a = true) (answers s)),
     length (answers s)) ∧
  length (answers s) ≤ 5.
Proof.
  intros Hr. pose proof (reachable_inv _ Hr) as Hinv. split.
  - rewrite totals_filtered. f_equal; f_equal; apply filter_all.
    + intros a Ha. apply list_elem_of_filter in Ha as [_ Ha].
      by apply (inv_sections_known s).
    + intros a Ha. by apply (inv_sections_known s).
  - pose proof (inv_answers_bound _ Hinv) as Hb. pose proof (inv_index _ Hinv) as Hi.
    change (Z.of_nat (length SECTIONS)) with 5%Z in Hi.
    unfold answered_bound in Hb. case_bool_decide; lia.
Qed.

(** X15.  The totals do not depend on the order of the answers. *)
Theorem totals_order (l k : list Answer.t) :
  l ≡ₚ k → totals (bySection l) = totals (bySection k).
Proof. intros Hp. rewrite !totals_filtered. by rewrite Hp. Qed.

Lemma round_div_le_100 c t : c ≤ t → 0 < t → round_div (100 * c) t ≤ 100.
Proof.
  intros Hct Ht. unfold round_div.
  assert ((2 * (100 * c) + t) / (2 * t) < 101); [|lia].
  apply Nat.Div0.div_lt_upper_bound. nia.
Qed.

(** X16.  The percentage of the completion message lies between 0 and 100;
    it is 100 when every counted answer is correct, and 0 when none is. *)
Theorem percentage_range (i : Input) (s : Session) :
  ∃ totalCorrect total pct feedback,
    replies (score i s) = [TestComplete totalCorrect total pct feedback] ∧
    pct ≤ 100 ∧
    (0 < total → totalCorrect = total → pct = 100) ∧
    (totalCorrect = 0 → pct = 0).
Proof.
  eexists _, _, _, _. split; [apply replies_score|].
  rewrite totals_sums. cbn [fst snd].
  pose proof (sum_list_le _ _ SECTIONS (section_correct_le (answers s))) as Hle.
  set (tc := sum_list (section_correct (answers s) <$> SECTIONS)) in *.
  set (t := sum_list (section_total (answers s) <$> SECTIONS)) in *.
  clearbody tc t. unfold percentage. destruct (t =? 0) eqn:Ht.
  - split; [lia|]. split; [|done]. apply Nat.eqb_eq in Ht. lia.
  - apply Nat.eqb_neq in Ht. split; [apply round_div_le_100; lia|]. split.
    + intros _ ->. unfold round_div.
      replace (2 * (100 * t) + t) with (t + 100 * (2 * t)) by lia.
      rewrite Nat.div_add by lia. rewrite Nat.div_small by lia. done.
    + intros ->. unfold round_div. simpl. apply Nat.div_small. lia.
Qed.

(* ===================================================================== *)
(** ** Skipped sections, and the end of a run                             *)
(* ===================================================================== *)

Lemma inv_started s : session_inv (started s).
Proof.
  split; simpl; try done.
  - apply NoDup_nil_2.
  - intros a Ha. by apply elem_of_nil in Ha.
Qed.

Lemma recordAnswer_valid i s q n :
  state s = WAITING_ANSWER → currentQ s = Some q →
  Text.parseInt (body i) = Some n → invalid_choice (Some n) q = false →
  recordAnswer i s =
  Continue (recorded i s q n) [AppendAttempt (make_attempt i q n (now i - qStart s))].
Proof.
  intros Hst Hq Hn Hv. unfold recordAnswer.
  by rewrite bool_decide_eq_true_2, Hq, Hn, Hv.
Qed.

Lemma inv_recorded i s q n :
  session_inv s → state s = WAITING_ANSWER → currentQ s = Some q →
  Text.parseInt (body i) = Some n → invalid_choice (Some n) q = false →
  session_inv (recorded i s q n).
Proof.
  intros Hinv Hst Hq Hn Hv.
  by destruct (inv_recordAnswer i s _ _ Hinv (recordAnswer_valid i s q n Hst Hq Hn Hv)).
Qed.

(** While no answer is awaited, the section at [sectionIndex] has no answer:
    the set of asked ids the ask block builds is empty. *)
Lemma askedIds_empty s :
  session_inv s → state s ≠ WAITING_ANSWER →
  askedIds s (section_at (sectionIndex s)) = ∅.
Proof.
  intros Hinv Hst. unfold askedIds. rewrite filter_none; [done|].
  intros a Ha Hsec. destruct (inv_sections _ Hinv a Ha) as (k & Hk & Hka).
  unfold answered_bound in Hk. rewrite bool_decide_eq_false_2 in Hk by done.
  symmetry in Hsec. pose proof (section_at_inj _ _ _ Hka Hsec). lia.
Qed.

Lemma Skipping_askNext i s sec :
  session_inv s → state s ≠ WAITING_ANSWER → (random i < random_den)%N →
  Skipping sec ∈ replies (askNext i s) →
  sec = section_at (sectionIndex s) ∧
  ∀ q, q ∈ questions i → Some (Question.section q) ≠ sec.
Proof.
  intros Hinv Hst Hr. unfold askNext.
  case_bool_decide as Hask; [|intros Hin; by apply elem_of_nil in Hin].
  case_match.
  - rewrite replies_score. intros Hin. in_trace Hin.
  - destruct (pickNextQuestion _ _ _ _) as [q'|] eqn:Hpick; simpl;
      intros Hin; in_trace Hin.
    injection Hin as ->. split; [done|].
    apply pickNextQuestion_None in Hpick; [|done].
    rewrite askedIds_empty in Hpick by done.
    intros q Hq Hsec.
    assert (q ∈ pool (questions i) (section_at (sectionIndex s)) ∅) as Hp
      by (apply elem_of_pool; split; [done|]; split; [done|]; apply not_elem_of_empty).
    rewrite Hpick in Hp. by apply elem_of_nil in Hp.
Qed.

(** X17.  On a reachable session, and with the draw in [0, 1), a section is
    skipped only when the sheet read for the request has no question at all
    in that section: no answered question ever stands in the way. *)
Theorem skip_means_empty_section (i : Input) (s : Session) (sec : option string) :
  reachable s → (random i < random_den)%N →
  Skipping sec ∈ replies (handler i s) →
  ∀ q, q ∈ questions i → Some (Question.section q) ≠ sec.
Proof.
  intros Hreach Hr. pose proof (reachable_inv _ Hreach) as Hinv.
  destruct (handler_cases i s)
    as [[Hst Hb] | [[Hst Hb] | [Hst | [[Hst Hq] | (q' & Hst & Hq & [Hv | (n & Hn & Hv)])]]]].
  - rewrite handler_idle by done. intros Hin. by apply elem_of_nil in Hin.
  - rewrite handler_start by done. rewrite replies_prepend. unfold replies at 1.
    simpl. intros Hin. in_trace Hin.
    by apply (Skipping_askNext i (started s) sec (inv_started s)).
  - rewrite handler_asking by done. intros Hin.
    apply (Skipping_askNext i s sec Hinv); [congruence | done | done].
  - rewrite handler_Threw by done. intros Hin. by apply elem_of_nil in Hin.
  - rewrite (handler_invalid _ _ q') by done. intros Hin. in_trace Hin.
  - rewrite (handler_valid _ _ q' n) by done. rewrite replies_prepend.
    unfold replies at 1. simpl. intros Hin.
    by apply (Skipping_askNext i (recorded i s q' n) sec
                (inv_recorded i s q' n Hinv Hst Hq Hn Hv)).
Qed.

(** One request that is taken up either ends the run or moves the index. *)
Lemma taken_progress i s :
  session_inv s → state s ≠ IDLE → taken s i = true →
  session_inv (session_after (handler i s)) ∧
  (state (session_after (handler i s)) = IDLE ∨
   (state (session_after (handler i s)) ≠ IDLE ∧
    sectionIndex (session_after (handler i s)) = (sectionIndex s + 1)%Z)).
Proof.
  intros Hinv Hst Ht. split; [by apply inv_handler|].
  assert (∀ s0, state s0 = ASKING → sectionIndex s0 = sectionIndex s →
    state (session_after (askNext i s0)) = IDLE ∨
    (state (session_after (askNext i s0)) ≠ IDLE ∧
     sectionIndex (session_after (askNext i s0)) = (sectionIndex s + 1)%Z)) as Hask.
  { intros s0 Hs0 Hidx.
    destruct (decide (Z.of_nat (length SECTIONS) ≤ sectionIndex s0)%Z) as [Hend | Hlt].
    - left. rewrite askNext_score by done. unfold score. by destruct (totals _).
    - right. destruct (askNext_advances i s0 Hs0) as [Hi Hc]; [lia|].
      rewrite Hi, Hidx. split; [|done].
      destruct Hc as [(q & _ & -> & _) | (-> & _)]; done. }
  unfold taken in Ht. destruct (state s) eqn:Hs; [done | |].
  - rewrite handler_asking by done. by apply Hask.
  - destruct (currentQ s) as [q|] eqn:Hq; [|done].
    apply negb_true_iff in Ht.
    destruct (Text.parseInt (body i)) as [n|] eqn:Hn; [|done].
    rewrite (handler_valid _ _ q n) by done. unfold prepend. simpl.
    by apply Hask.
Qed.

Lemma run_completes_inv inputs s :
  session_inv s → state s ≠ IDLE → all_taken s inputs = true →
  (6 - sectionIndex s ≤ Z.of_nat (length inputs))%Z →
  ∃ k, (0 < Z.of_nat k ≤ 6 - sectionIndex s)%Z ∧
       state (after (take k inputs) s) = IDLE.
Proof.
  revert s. induction inputs as [|i inputs IH]; intros s Hinv Hst Hall Hlen.
  - pose proof (inv_index _ Hinv) as Hi.
    change (Z.of_nat (length SECTIONS)) with 5%Z in Hi. simpl in Hlen. lia.
  - simpl in Hall. apply andb_true_iff in Hall as [Ht Hall].
    pose proof (inv_index _ Hinv) as Hi.
    change (Z.of_nat (length SECTIONS)) with 5%Z in Hi.
    destruct (taken_progress i s Hinv Hst Ht) as [Hinv' [Hidle | [Hne Hidx]]].
    + exists 1. split; [lia | done].
    + destruct (IH _ Hinv' Hne Hall) as (k & Hk & Hidle).
      { rewrite Hidx. simpl length in Hlen. lia. }
      exists (S k). split; [lia | done].
Qed.

(** X18.  A run always comes to its end: from a reachable session that is
    not IDLE, a sequence of requests that are all taken up (no rejected
    reply) and that is at least [6 - sectionIndex] long brings the session
    back to IDLE, after at most [6 - sectionIndex] of them. *)
Theorem run_completes (inputs : list Input) (s : Session) :
  reachable s → state s ≠ IDLE → all_taken s inputs = true →
  (6 - sectionIndex s ≤ Z.of_nat (length inputs))%Z →
  ∃ k, (0 < Z.of_nat k ≤ 6 - sectionIndex s)%Z ∧
       state (after (take k inputs) s) = IDLE.
Proof. intros Hr. apply run_completes_inv. by apply reachable_inv. Qed.

(* ===================================================================== *)
(** ** The in-memory store: reads, writes and other keys                  *)
(* ===================================================================== *)

Section StoreMore.
Context {V : Type}.
Implicit Types memStore : gmap string (Store.entry V).

Lemma memGet_written memStore key (v : V) (ttl t0 t1 : Z) :
  (t1 ≤ t0 + ttl * 1000)%Z →
  Store.memGet t1 key (Store.memSet t0 key v ttl memStore) =
  (Some v, Store.memSet t0 key v ttl memStore).
Proof.
  intros Ht. apply (memGet_live t1 key _ (Store.mkEntry v (t0 + ttl * 1000))); [|done].
  apply lookup_insert_eq.
Qed.

(** X20.  A read changes the store in one way only: it removes the entry it
    reads when that entry has expired.  Entries under other keys stay; a
    read that returns a value leaves the whole store as it was, and that
    value is the one of an entry that has no expiry or has not passed it; a
    read that returns absent leaves no entry under the key. *)
Theorem memGet_only_evicts now key memStore :
  (∀ key', key' ≠ key →
     snd (Store.memGet now key memStore) !! key' = memStore !! key') ∧
  (fst (Store.memGet now key memStore) = None →
     snd (Store.memGet now key memStore) !! key = None) ∧
  (∀ v, fst (Store.memGet now key memStore) = Some v →
     snd (Store.memGet now key memStore) = memStore ∧
     ∃ rec, memStore !! key = Some rec ∧ Store.value rec = v ∧
            (Store.expires rec = 0 ∨ now ≤ Store.expires rec)%Z).
Proof.
  unfold Store.memGet. destruct (memStore !! key) as [rec|] eqn:Hrec; simpl.
  - destruct (negb (Store.expires rec =? 0)%Z && (Store.expires rec <? now)%Z)
      eqn:Hexp; simpl.
    + split; [|split; [|done]].
      * intros key' Hne. by rewrite lookup_delete_ne.
      * intros _. apply lookup_delete_eq.
    + split; [done|]. split; [done|]. intros v [= <-]. split; [done|].
      exists rec. split; [done|]. split; [done|].
      apply andb_false_iff in Hexp as [Hz | Hlt].
      * left. apply negb_false_iff, Z.eqb_eq in Hz. done.
      * right. by apply Z.ltb_ge in Hlt.
  - done.
Qed.

(** X21.  The last write wins and restarts the expiry: writing a key again
    replaces both the value and the expiry stamp, so a read within the new
    time to live returns the new value even when the old stamp has passed. *)
Theorem memSet_overwrites memStore key (v1 v2 : V) (ttl1 ttl2 t0 t1 t2 : Z) :
  (t2 ≤ t1 + ttl2 * 1000)%Z →
  Store.memSet t1 key v2 ttl2 (Store.memSet t0 key v1 ttl1 memStore) =
    Store.memSet t1 key v2 ttl2 memStore ∧
  fst (Store.memGet t2 key
         (Store.memSet t1 key v2 ttl2 (Store.memSet t0 key v1 ttl1 memStore)))
    = Some v2.
Proof.
  intros Ht2. unfold Store.memSet at 1 2 3. rewrite insert_insert_eq.
  split; [done|]. fold (Store.memSet t1 key v2 ttl2 memStore).
  by rewrite memGet_written.
Qed.

(** X22.  An entry whose expiry stamp comes out as 0 never expires: the
    guard [rec.expires && ...] takes 0 for "no expiry", so every later read
    returns the value and keeps the entry. *)
Theorem zero_expiry_never_expires memStore key (v : V) (ttl t0 t1 : Z) :
  (t0 + ttl * 1000 = 0)%Z →
  Store.memGet t1 key (Store.memSet t0 key v ttl memStore) =
  (Some v, Store.memSet t0 key v ttl memStore).
Proof.
  intros Hz. unfold Store.memGet, Store.memSet. rewrite lookup_insert_eq. simpl.
  by rewrite Hz.
Qed.

(** X23.  Reads and writes under different keys do not interfere: a read of
    [key'] after a write of [key] returns what it returned before the
    write, and the two operations commute on the store. *)
Theorem memGet_memSet_commute memStore key key' (v : V) (ttl t0 now : Z) :
  key ≠ key' →
  Store.memGet now key' (Store.memSet t0 key v ttl memStore) =
  (fst (Store.memGet now key' memStore),
   Store.memSet t0 key v ttl (snd (Store.memGet now key' memStore))).
Proof.
  intros Hne. unfold Store.memGet, Store.memSet.
  rewrite lookup_insert_ne by done.
  destruct (memStore !! key') as [rec|]; [|done].
  case_match; simpl; [|done]. by rewrite delete_insert_ne.
Qed.

End StoreMore.

(* ===================================================================== *)
(** ** Requests against the in-memory store                               *)
(* ===================================================================== *)

Lemma SetSession_handler i s key p :
  SetSession key p ∈ trace (handler i s) → key = from i.
Proof.
  destruct (handler_cases i s)
    as [[Hst Hb] | [[Hst Hb] | [Hst | [[Hst Hq] | (q & Hst & Hq & [Hv | (n & Hn & Hv)])]]]].
  - rewrite handler_idle by done. simpl. intros H. in_trace H. by injection H as -> ->.
  - rewrite handler_start by done. intros H. apply SetSession_prepend in H; [|done].
    by apply SetSession_askNext in H as [-> _].
  - rewrite handler_asking by done. intros H. by apply SetSession_askNext in H as [-> _].
  - rewrite handler_Threw by done. simpl. intros H. by apply elem_of_nil in H.
  - rewrite (handler_invalid _ _ q) by done. simpl. intros H. in_trace H.
  - rewrite (handler_valid _ _ q n) by done. intros H.
    apply SetSession_prepend in H; [|done].
    by apply SetSession_askNext in H as [-> _].
Qed.

Lemma effects_store now key t (memStore : gmap string (Store.entry Session)) :
  (∀ k p, SetSession k p ∈ t → k = key) →
  foldl (apply_effect now) memStore t =
  foldl (λ m p, Store.memSet now key p Store.default_ttl m) memStore (saved t).
Proof.
  revert memStore. induction t as [|e t IH]; intros memStore Hkey; [done|].
  simpl. rewrite IH by (intros k p Hin; apply (Hkey k p); by right).
  destruct e as [| k p |]; simpl; try done.
  by rewrite (Hkey k p) by left.
Qed.

(** What a request does to the store: the read, and the one write if the
    handler persisted. *)
Lemma serve_store i memStore :
  serve i memStore =
  (webhook i (fst (Store.memGet (now i) (from i) memStore)),
   match persisted (webhook i (fst (Store.memGet (now i) (from i) memStore))) with
   | Some p =>
       Store.memSet (now i) (from i) p Store.default_ttl
         (snd (Store.memGet (now i) (from i) memStore))
   | None => snd (Store.memGet (now i) (from i) memStore)
   end).
Proof.
  unfold serve. destruct (Store.memGet (now i) (from i) memStore) as [stored m1].
  simpl. f_equal. unfold webhook, persisted.
  rewrite (effects_store _ (from i)) by (intros k p; apply SetSession_handler).
  by destruct (handler_saved i (default (freshSession (now i)) stored)) as [-> | [-> _]].
Qed.

Lemma serve_other i memStore key :
  key ≠ from i → snd (serve i memStore) !! key = memStore !! key.
Proof.
  intros Hne. rewrite serve_store. simpl.
  assert (snd (Store.memGet (now i) (from i) memStore) !! key = memStore !! key) as Hget.
  { unfold Store.memGet. destruct (memStore !! from i); [|done].
    case_match; simpl; [|done]. by rewrite lookup_delete_ne. }
  destruct (persisted _); [|done].
  unfold Store.memSet. by rewrite lookup_insert_ne.
Qed.



(** X26.  A rejected reply does not extend the life of the session: when
    the stored session waits for an answer and the text is not a number of
    the option range, the request sends the prompt and leaves the store, the
    expiry stamp included, exactly as it was. *)
Theorem rejected_reply_keeps_store (i : Input)
    (memStore : gmap string (Store.entry Session))
    (rec : Store.entry Session) (q : Question.t) :
  memStore !! from i = Some rec →
  (now i ≤ Store.expires rec)%Z →
  state (Store.value rec) = WAITING_ANSWER →
  currentQ (Store.value rec) = Some q →
  bad_choice (body i) (length (Question.options q)) →
  serve i memStore =
  (mkOutcome (Store.value rec)
     [SendWA (from i) (PleaseReply (length (Question.options q)))] Responded,
   memStore).
Proof.
  intros Hrec Hlive Hst Hq Hbad. apply invalid_choice_iff in Hbad.
  rewrite serve_store, (memGet_live _ _ _ _ Hrec Hlive). simpl.
  unfold webhook. simpl. by rewrite (handler_invalid _ _ q).
Qed.

Lemma serve_all_snoc inputs i :
  serve_all (inputs ++ [i]) = snd (serve i (serve_all inputs)).
Proof. unfold serve_all. by rewrite foldl_snoc. Qed.

(** X27.  Starting with an empty store, after any sequence of requests
    every entry of the store is filed under the sender of one of them and
    holds a reachable session. *)
Theorem stored_sessions (inputs : list Input) (key : string)
    (rec : Store.entry Session) :
  serve_all inputs !! key = Some rec →
  key ∈ (from <$> inputs) ∧ reachable (Store.value rec).
Proof.
  intros Hrec. split.
  - revert rec Hrec. induction inputs as [|i inputs IH] using rev_ind; intros rec Hrec.
    + unfold serve_all in Hrec. simpl in Hrec. by rewrite lookup_empty in Hrec.
    + rewrite fmap_app, elem_of_app. rewrite serve_all_snoc in Hrec.
      destruct (decide (key = from i)) as [-> | Hne].
      * right. simpl. left.
      * left. rewrite serve_other in Hrec by done. by apply (IH rec).
  - assert (store_reachable (serve_all inputs)) as Hok; [|by apply (Hok key)].
    clear. induction inputs as [|i inputs IH] using rev_ind.
    + apply store_reachable_empty.
    + rewrite serve_all_snoc. by apply serve_reachable.
Qed.

(* ===================================================================== *)
(** ** Feedback lines and wrong answers                                   *)
(* ===================================================================== *)

Lemma feedback_line_Some l questions s line :
  feedback_line l questions s = Some line →
  ∃ a qWrong r,
    a ∈ l ∧ Answer.section a = s ∧ Answer.isCorrect a = false ∧
    qWrong ∈ questions ∧ Question.id qWrong = Answer.qid a ∧
    Question.rationale qWrong = Some r ∧ r ≠ EmptyString ∧
    line = (bullet ++ s ++ ": " ++ r)%string.
Proof.
  unfold feedback_line, first_incorrect.
  destruct (filter _ (in_section s l)) as [|a k] eqn:Hf; [done|].
  cbn [head mbind option_bind].
  destruct (find_question (Answer.qid a) questions) as [qWrong|] eqn:Hq; [|done].
  cbn [mbind option_bind].
  destruct (Question.rationale qWrong) as [r|] eqn:Hr; [|done].
  cbn [mbind option_bind]. case_decide as Hne; [done|]. intros [= <-].
  assert (a ∈ filter (λ a, Answer.isCorrect a = false) (in_section s l)) as Ha
    by (rewrite Hf; left).
  apply list_elem_of_filter in Ha as [Hwrong Ha].
  apply list_elem_of_filter in Ha as [Hsec Ha].
  unfold find_question in Hq. apply find_some in Hq as [Hin Hid].
  apply bool_decide_eq_true_1 in Hid. apply list_elem_of_In in Hin.
  exists a, qWrong, r. done.
Qed.

Lemma omap_length_le {A B} (f : A → option B) (l : list A) :
  length (omap f l) ≤ length l.
Proof. induction l as [|x l IH]; csimpl; [done|]. destruct (f x); simpl; lia. Qed.

(** X28.  Feedback is given on wrong answers only: every feedback line of
    the completion message names a section of [SECTIONS] in which some
    answer is marked incorrect, and carries the non-empty rationale of a
    question of the sheet with that answer's question id; there are at most
    five lines. *)
Theorem feedback_from_wrong_answers (l : list Answer.t)
    (questions : list Question.t) (line : string) :
  line ∈ rationaleLines (bySection l) questions →
  length (rationaleLines (bySection l) questions) ≤ 5 ∧
  ∃ s a qWrong r,
    s ∈ SECTIONS ∧ a ∈ l ∧ Answer.section a = s ∧ Answer.isCorrect a = false ∧
    qWrong ∈ questions ∧ Question.id qWrong = Answer.qid a ∧
    Question.rationale qWrong = Some r ∧ r ≠ EmptyString ∧
    line = (bullet ++ s ++ ": " ++ r)%string.
Proof.
  unfold rationaleLines. rewrite rationale_fold, app_nil_l. intros Hin. split.
  - apply (omap_length_le (feedback_line l questions) SECTIONS).
  - apply list_elem_of_omap in Hin as (s & Hs & Hline).
    apply feedback_line_Some in Hline as (a & q & r & ?). exists s, a, q, r. tauto.
Qed.

(** X29.  When no answer is marked incorrect the completion message has no
    feedback block at all. *)
Theorem no_feedback_when_all_correct (i : Input) (s : Session) :
  (∀ a, a ∈ answers s → Answer.isCorrect a = true) →
  ∃ totalCorrect total pct,
    replies (score i s) = [TestComplete totalCorrect total pct EmptyString].
Proof.
  intros Hall. eexists _, _, _. rewrite replies_score. do 2 f_equal.
  destruct (rationaleLines (bySection (answers s)) (questions i)) as [|line k] eqn:Hl;
    [done|].
  exfalso. assert (line ∈ rationaleLines (bySection (answers s)) (questions i)) as Hin
    by (rewrite Hl; left).
  unfold rationaleLines in Hin. rewrite rationale_fold, app_nil_l in Hin.
  apply list_elem_of_omap in Hin as (sec & _ & Hline).
  apply feedback_line_Some in Hline as (a & _ & _ & Ha & _ & Hwrong & _).
  rewrite (Hall a Ha) in Hwrong. done.
Qed.

(* ===================================================================== *)
(** ** The numbers printed in front of the options                        *)
(* ===================================================================== *)

Lemma digits_uint (d : Decimal.uint) (acc : nat) :
  Text.digits (NilEmpty.string_of_uint d) (Some (Z.of_nat acc)) =
  Some (Z.of_nat (Nat.of_uint_acc d acc)).
Proof.
  revert acc. induction d; intros acc; simpl; [done|..];
    rewrite Nat.tail_mul_spec;
    match goal with
    | |- Text.digits _ (Some ?z) = Some (Z.of_nat (Nat.of_uint_acc _ ?a)) =>
        replace z with (Z.of_nat a) by (cbn; lia)
    end; apply IHd.
Qed.

Lemma parseInt_decimal (n : nat) : Text.parseInt (decimal n) = Some (Z.of_nat n).
Proof.
  unfold decimal. rewrite <- (Unsigned.of_to n) at 2. unfold Nat.of_uint.
  pose proof (Unsigned.to_of (Nat.to_uint n)) as Hnorm.
  rewrite Unsigned.of_to in Hnorm.
  destruct (Nat.to_uint n) as [|d|d|d|d|d|d|d|d|d|d]; [discriminate Hnorm|..];
    clear Hnorm;
    unfold Text.parseInt; simpl NilEmpty.string_of_uint; cbn [Text.skip_space];
    simpl; rewrite ?Nat.tail_mul_spec;
    match goal with
    | |- Text.digits _ (Some ?z) = Some (Z.of_nat (Nat.of_uint_acc _ ?a)) =>
        replace z with (Z.of_nat a) by (cbn; lia)
    end; apply digits_uint.
Qed.

(** X30.  Typing back the number printed in front of an option selects that
    option: in the question message the option at position [k] (from 0) is
    on the line that begins with the numeral of [k + 1], and a reply that
    is this numeral is accepted and recorded as the choice [k + 1]. *)
Theorem printed_number_selects (i : Input) (s : Session) (q : Question.t)
    (k : nat) (o : string) :
  state s = WAITING_ANSWER → currentQ s = Some q →
  Question.options q !! k = Some o →
  body i = decimal (k + 1) →
  option_lines q !! k = Some (decimal (k + 1) ++ ") " ++ o)%string ∧
  answers (session_after (handler i s)) =
    answers s ++ [make_answer q (Z.of_nat (k + 1)) (now i - qStart s)].
Proof.
  intros Hst Hq Ho Hb. split.
  - unfold option_lines. by rewrite list_lookup_imap, Ho.
  - apply lookup_lt_Some in Ho.
    rewrite (handler_valid i s q (Z.of_nat (k + 1))).
    + unfold prepend. simpl. by rewrite answers_askNext.
    + done.
    + done.
    + rewrite Hb. apply parseInt_decimal.
    + apply valid_choice_range. lia.
Qed.

(* ===================================================================== *)
(** ** The properties at work on the sample data                          *)
(* ===================================================================== *)

Lemma demo_started_reachable : reachable demo_started.
Proof. apply reach_step, reach_fresh. Defined.

Lemma idle_message_ignored_witness :
  state (freshSession 0) = IDLE ∧
  Text.start_pattern (body (demo_input "hello")) = false ∧
  session_after (handler (demo_input "hello") (freshSession 0)) = freshSession 0 ∧
  replies (handler (demo_input "hello") (freshSession 0)) = [].
Proof.
  split; [reflexivity|]. split; [reflexivity|].
  destruct (idle_message_ignored (demo_input "hello") (freshSession 0) eq_refl eq_refl)
    as (H1 & H2 & _).
  split; [exact H1 | exact H2].
Defined.

Lemma valid_answer_recorded_witness :
  state demo_waiting = WAITING_ANSWER ∧
  currentQ demo_waiting = Some demo_question ∧
  Text.parseInt (body (demo_input "2")) = Some 2%Z ∧
  (1 ≤ 2 ≤ Z.of_nat (length (Question.options demo_question)))%Z ∧
  answers (session_after (handler (demo_input "2") demo_waiting)) =
    [make_answer demo_question 2 4000].
Proof.
  assert (H : (1 ≤ 2 ≤ Z.of_nat (length (Question.options demo_question)))%Z)
    by (simpl; lia).
  split; [reflexivity|]. split; [reflexivity|]. split; [reflexivity|].
  split; [exact H|].
  exact (proj1 (valid_answer_recorded (demo_input "2") demo_waiting demo_question 2
                  eq_refl eq_refl eq_refl H)).
Defined.

Lemma start_asks_first_section_witness :
  state (freshSession 0) = IDLE ∧
  Text.start_pattern (body (demo_input "Start")) = true ∧
  sectionIndex (session_after (handler (demo_input "Start") (freshSession 0))) = 1%Z ∧
  answers (session_after (handler (demo_input "Start") (freshSession 0))) = [].
Proof.
  split; [reflexivity|]. split; [reflexivity|].
  destruct (start_asks_first_section (demo_input "Start") (freshSession 0)
              eq_refl eq_refl) as (H1 & H2 & _).
  split; [exact H1 | exact H2].
Defined.

Lemma asking_advances_witness :
  state demo_skipped = ASKING ∧
  (sectionIndex demo_skipped < Z.of_nat (length SECTIONS))%Z ∧
  sectionIndex (session_after (handler (demo_input "next") demo_skipped)) = 4%Z ∧
  answers (session_after (handler (demo_input "next") demo_skipped)) =
    answers demo_skipped.
Proof.
  assert (H : (sectionIndex demo_skipped < Z.of_nat (length SECTIONS))%Z)
    by (vm_compute; reflexivity).
  split; [reflexivity|]. split; [exact H|].
  destruct (asking_advances (demo_input "next") demo_skipped eq_refl H)
    as (H1 & H2 & _).
  split; [exact H1 | exact H2].
Defined.

Lemma last_answer_scores_witness :
  state full_last = WAITING_ANSWER ∧
  currentQ full_last = Some (full_question "Arguments") ∧
  Text.parseInt (body (full_input "1")) = Some 1%Z ∧
  (1 ≤ 1 ≤ Z.of_nat (length (Question.options (full_question "Arguments"))))%Z ∧
  (Z.of_nat (length SECTIONS) ≤ sectionIndex full_last)%Z ∧
  state (session_after (handler (full_input "1") full_last)) = IDLE ∧
  length (answers (session_after (handler (full_input "1") full_last))) = 5.
Proof.
  assert (H1 : state full_last = WAITING_ANSWER) by (vm_compute; reflexivity).
  assert (H2 : currentQ full_last = Some (full_question "Arguments"))
    by (vm_compute; reflexivity).
  assert (H3 : (1 ≤ 1 ≤ Z.of_nat (length (Question.options (full_question "Arguments"))))%Z)
    by (simpl; lia).
  assert (H4 : (Z.of_nat (length SECTIONS) ≤ sectionIndex full_last)%Z)
    by (vm_compute; discriminate).
  split; [exact H1|]. split; [exact H2|]. split; [reflexivity|].
  split; [exact H3|]. split; [exact H4|].
  destruct (last_answer_scores (full_input "1") full_last (full_question "Arguments") 1
              H1 H2 eq_refl H3 H4) as (H5 & H6 & _).
  split; [exact H5|]. rewrite H6. vm_compute. reflexivity.
Defined.

Lemma asked_question_is_pending_witness :
  Ask (Some "Inference") demo_inference
    ∈ replies (handler (demo_input "start") (freshSession 0)) ∧
  demo_inference ∈ questions (demo_input "start") ∧
  currentQ demo_started = Some demo_inference.
Proof.
  assert (H : Ask (Some "Inference") demo_inference
                ∈ replies (handler (demo_input "start") (freshSession 0)))
    by (apply (list_elem_of_lookup_2 _ 1); vm_compute; reflexivity).
  split; [exact H|].
  destruct (asked_question_is_pending (demo_input "start") (freshSession 0)
              (Some "Inference") demo_inference H) as (H1 & _ & _ & H4 & _).
  split; [exact H1 | exact H4].
Defined.

Lemma answers_count_witness :
  reachable demo_skipped ∧
  (Z.of_nat (length (answers demo_skipped)) ≤ sectionIndex demo_skipped ≤ 5)%Z.
Proof.
  split; [exact demo_skipped_reachable|].
  exact (proj1 (answers_count demo_skipped demo_skipped_reachable)).
Defined.

Lemma pending_question_witness :
  reachable demo_answered ∧
  currentQ demo_answered = Some demo_question ∧
  section_at (sectionIndex demo_answered - 1) = Some (Question.section demo_question) ∧
  in_section (Question.section demo_question) (answers demo_answered) = [].
Proof.
  split; [exact demo_answered_reachable|].
  assert (H : currentQ demo_answered = Some demo_question) by (vm_compute; reflexivity).
  split; [exact H|].
  exact (proj2 (pending_question demo_answered demo_answered_reachable)
           demo_question H).
Defined.

Lemma totals_count_witness :
  (∀ a, a ∈ answers demo_foreign → Answer.section a ∉ inherited_keys) ∧
  ∃ pct feedback,
    replies (score (demo_input "score") demo_foreign) =
      [TestComplete 1 1 pct feedback].
Proof.
  assert (H : ∀ a, a ∈ answers demo_foreign → Answer.section a ∉ inherited_keys).
  { intros a Ha. apply list_elem_of_In in Ha. vm_compute in Ha.
    destruct Ha as [<- | [<- | []]];
      apply (bool_decide_unpack _); vm_compute; reflexivity. }
  split; [exact H|].
  exact (totals_count (demo_input "score") demo_foreign H).
Defined.

Lemma score_counts_every_answer_witness :
  reachable demo_skipped ∧
  totals (bySection (answers demo_skipped)) = (1, 2).
Proof.
  split; [exact demo_skipped_reachable|].
  destruct (score_counts_every_answer demo_skipped demo_skipped_reachable) as [H _].
  rewrite H. vm_compute. reflexivity.
Defined.

Lemma totals_order_witness :
  let a := make_answer demo_inference 3 10 in
  let b := make_answer demo_question 1 20 in
  [a; b] ≡ₚ [b; a] ∧
  totals (bySection [a; b]) = totals (bySection [b; a]).
Proof.
  intros a b. assert (H : [a; b] ≡ₚ [b; a]) by apply perm_swap.
  split; [exact H|]. exact (totals_order [a; b] [b; a] H).
Defined.

Lemma skip_means_empty_section_witness :
  reachable demo_skipped ∧
  (random (demo_input "next") < random_den)%N ∧
  Skipping (Some "Interpretation") ∈ replies (handler (demo_input "next") demo_skipped) ∧
  Some (Question.section demo_question) ≠ Some "Interpretation".
Proof.
  assert (H1 : (random (demo_input "next") < random_den)%N) by (vm_compute; reflexivity).
  assert (H2 : Skipping (Some "Interpretation")
                 ∈ replies (handler (demo_input "next") demo_skipped))
    by (apply (list_elem_of_lookup_2 _ 0); vm_compute; reflexivity).
  split; [exact demo_skipped_reachable|]. split; [exact H1|]. split; [exact H2|].
  apply (skip_means_empty_section (demo_input "next") demo_skipped
           (Some "Interpretation") demo_skipped_reachable H1 H2 demo_question).
  apply (list_elem_of_lookup_2 _ 1). reflexivity.
Defined.

Lemma run_completes_witness :
  reachable demo_started ∧ state demo_started ≠ IDLE ∧
  all_taken demo_started demo_rest = true ∧
  (6 - sectionIndex demo_started ≤ Z.of_nat (length demo_rest))%Z ∧
  ∃ k, (0 < Z.of_nat k ≤ 6 - sectionIndex demo_started)%Z ∧
       state (after (take k demo_rest) demo_started) = IDLE.
Proof.
  assert (H1 : state demo_started ≠ IDLE) by (vm_compute; discriminate).
  assert (H2 : all_taken demo_started demo_rest = true) by (vm_compute; reflexivity).
  assert (H3 : (6 - sectionIndex demo_started ≤ Z.of_nat (length demo_rest))%Z)
    by (vm_compute; discriminate).
  split; [exact demo_started_reachable|]. split; [exact H1|]. split; [exact H2|].
  split; [exact H3|].
  exact (run_completes demo_rest demo_started demo_started_reachable H1 H2 H3).
Defined.

Lemma memSet_overwrites_witness :
  (4000 ≤ 2000 + 3600 * 1000)%Z ∧
  fst (Store.memGet 4000 "whatsapp:+100"
         (Store.memSet 2000 "whatsapp:+100" demo_answered 3600
            (Store.memSet 1000 "whatsapp:+100" demo_started 1 ∅)))
    = Some demo_answered.
Proof.
  assert (H : (4000 ≤ 2000 + 3600 * 1000)%Z) by lia.
  split; [exact H|].
  exact (proj2 (memSet_overwrites ∅ "whatsapp:+100" demo_started demo_answered
                  1 3600 1000 2000 4000 H)).
Defined.

Lemma zero_expiry_never_expires_witness :
  (0 + 0 * 1000 = 0)%Z ∧
  Store.memGet 999999999 "whatsapp:+100"
    (Store.memSet 0 "whatsapp:+100" demo_started 0 ∅)
  = (Some demo_started, Store.memSet 0 "whatsapp:+100" demo_started 0 ∅).
Proof.
  split; [reflexivity|].
  exact (zero_expiry_never_expires ∅ "whatsapp:+100" demo_started 0 0 999999999
           eq_refl).
Defined.

Lemma memGet_memSet_commute_witness :
  "whatsapp:+100" ≠ "whatsapp:+200" ∧
  fst (Store.memGet 5000 "whatsapp:+200"
         (Store.memSet 1000 "whatsapp:+100" demo_started 3600 demo_store))
  = fst (Store.memGet 5000 "whatsapp:+200" demo_store).
Proof.
  assert (H : "whatsapp:+100" ≠ "whatsapp:+200") by discriminate.
  split; [exact H|].
  rewrite (memGet_memSet_commute demo_store "whatsapp:+100" "whatsapp:+200"
             demo_started 3600 1000 5000 H).
  reflexivity.
Defined.



Lemma rejected_reply_keeps_store_witness :
  let rec := Store.mkEntry demo_waiting (1000 + 3600 * 1000) in
  demo_store !! from (demo_input "9") = Some rec ∧
  (now (demo_input "9") ≤ Store.expires rec)%Z ∧
  state (Store.value rec) = WAITING_ANSWER ∧
  currentQ (Store.value rec) = Some demo_question ∧
  bad_choice (body (demo_input "9")) (length (Question.options demo_question)) ∧
  snd (serve (demo_input "9") demo_store) = demo_store.
Proof.
  intros rec.
  assert (H1 : demo_store !! from (demo_input "9") = Some rec)
    by (vm_compute; reflexivity).
  assert (H2 : (now (demo_input "9") ≤ Store.expires rec)%Z) by (simpl; lia).
  assert (H3 : bad_choice (body (demo_input "9"))
                 (length (Question.options demo_question)))
    by (right; exists 9%Z; split; [reflexivity | right; simpl; lia]).
  split; [exact H1|]. split; [exact H2|]. split; [reflexivity|].
  split; [reflexivity|]. split; [exact H3|].
  rewrite (rejected_reply_keeps_store (demo_input "9") demo_store rec demo_question
             H1 H2 eq_refl eq_refl H3).
  reflexivity.
Defined.

Lemma stored_sessions_witness :
  let rec := Store.mkEntry demo_started (5000 + 3600 * 1000) in
  serve_all [demo_input "start"] !! "whatsapp:+100" = Some rec ∧
  "whatsapp:+100" ∈ (from <$> [demo_input "start"]) ∧
  reachable (Store.value rec).
Proof.
  intros rec.
  assert (H : serve_all [demo_input "start"] !! "whatsapp:+100" = Some rec)
    by (vm_compute; reflexivity).
  split; [exact H|].
  exact (stored_sessions [demo_input "start"] "whatsapp:+100" rec H).
Defined.

Lemma feedback_from_wrong_answers_witness :
  let line := (bullet ++ "Assumptions: It is taken for granted.")%string in
  line ∈ rationaleLines (bySection (answers demo_skipped)) demo_sheet ∧
  length (rationaleLines (bySection (answers demo_skipped)) demo_sheet) ≤ 5.
Proof.
  intros line.
  assert (H : line ∈ rationaleLines (bySection (answers demo_skipped)) demo_sheet)
    by (apply (list_elem_of_lookup_2 _ 0); vm_compute; reflexivity).
  split; [exact H|].
  exact (proj1 (feedback_from_wrong_answers (answers demo_skipped) demo_sheet line H)).
Defined.

Lemma no_feedback_when_all_correct_witness :
  (∀ a, a ∈ answers demo_answered → Answer.isCorrect a = true) ∧
  ∃ totalCorrect total pct,
    replies (score (demo_input "x") demo_answered)
      = [TestComplete totalCorrect total pct EmptyString].
Proof.
  assert (H : ∀ a, a ∈ answers demo_answered → Answer.isCorrect a = true).
  { intros a Ha. apply list_elem_of_In in Ha. vm_compute in Ha.
    destruct Ha as [<- | []]. reflexivity. }
  split; [exact H|].
  exact (no_feedback_when_all_correct (demo_input "x") demo_answered H).
Defined.

Lemma printed_number_selects_witness :
  state demo_waiting = WAITING_ANSWER ∧
  currentQ demo_waiting = Some demo_question ∧
  Question.options demo_question !! 1 = Some "Assumption not made" ∧
  body (demo_input "2") = decimal (1 + 1) ∧
  option_lines demo_question !! 1 = Some "2) Assumption not made".
Proof.
  split; [reflexivity|]. split; [reflexivity|]. split; [reflexivity|].
  split; [reflexivity|].
  exact (proj1 (printed_number_selects (demo_input "2") demo_waiting demo_question
                  1 "Assumption not made" eq_refl eq_refl eq_refl eq_refl)).
Defined.
